(** * Web graph explorer: the crawl scheduler of the server

    A shallow embedding of the server's [getPageInfo], [crawlKHops] and
    [POST /api/crawl] handler, and the properties of the breadth-first,
    depth-bounded, batched crawl.

    What the program leaves to its environment is a variable of the section
    below: the WHATWG URL parser ([new URL(s).toString()]), the headless
    browser behind [getPageInfo], and the runtime faults the [try] of
    [crawlKHops] guards against.  One crawl session is modelled in
    isolation: no second request touches [urlCache] while a crawl runs.
    The depth limit [k] is whatever number the request holds, an integer or
    not. *)

From stdpp Require Import gmap strings list sorting.
From Stdlib Require Import ZArith QArith Qcanon Lia Ascii.

Open Scope string_scope.
Open Scope list_scope.
Open Scope Z_scope.

Set Warnings "-clear-no-such-hyp".

(** ** Configuration *)

Record Limits := {
  LINKS_PER_PAGE : nat;
  TOTAL_NODES : nat;
  PAGE_TIMEOUT : nat;
  CONCURRENT_FETCHES : nat
}.

(** [const LIMITS = {...}] *)
Definition LIMITS : Limits :=
  {| LINKS_PER_PAGE := 20; TOTAL_NODES := 50;
     PAGE_TIMEOUT := 3000; CONCURRENT_FETCHES := 5 |}.

(** ** String helpers of the link filter *)

Definition startsWith (s p : string) : bool := String.prefix p s.

Fixpoint includes (s sub : string) : bool :=
  String.prefix sub s ||
  match s with
  | EmptyString => false
  | String _ s' => includes s' sub
  end.

Definition endsWith (s suf : string) : bool :=
  (String.length suf <=? String.length s)%nat &&
  String.eqb
    (String.substring (String.length s - String.length suf)
                      (String.length suf) s) suf.

Definition has {A} (eqb : A -> A -> bool) (x : A) (l : list A) : bool :=
  existsb (eqb x) l.

(** [[...new Set(l)]]: duplicates dropped, first occurrences kept in order. *)
Definition unique (l : list string) : list string :=
  fold_left (fun acc x => if has String.eqb x acc then acc else acc ++ [x]) l [].

(** ** Pages *)

(** What [page.evaluate] hands back from the browser: the title expression,
    the [href] of every anchor of the document, and the favicon reference. *)
Record document := {
  doc_title : string;
  doc_hrefs : list string;
  doc_favicon : string
}.

(** The three ways a run of the browser for one url can go. *)
Inductive browser_run :=
| BrowserFails               (* puppeteer.launch (before the try) or browser.close
                                (in the finally) throws: the promise rejects *)
| PageThrows                 (* newPage / goto / evaluate throws inside the try:
                                timeout, DNS, navigation *)
| PageEvaluates (d : document).

Record pageInfo := {
  title : string;
  links : list string;
  favicon : option string
}.

(** A settled promise of [Promise.allSettled]. *)
Inductive settled (A : Type) :=
| fulfilled (value : A)
| rejected.
Arguments fulfilled {A} value.
Arguments rejected {A}.

(** ** Graph data *)

Record entry := { url : string; depth : Z }.

Record node := { id : string; node_title : string; node_favicon : option string }.

Record link := { source : string; target : string }.

Record graphData := { graph_nodes : list node; graph_links : list link }.

Definition link_eqb (a b : link) : bool :=
  String.eqb (source a) (source b) && String.eqb (target a) (target b).

(** [nodes] is a JS [Map] keyed by url: insertion ordered, [set] overwrites
    the value of a present key in place. *)
Fixpoint map_set (key : string) (v : node) (m : list (string * node))
  : list (string * node) :=
  match m with
  | [] => [(key, v)]
  | (k', v') :: m' =>
      if String.eqb k' key then (k', v) :: m' else (k', v') :: map_set key v m'
  end.

Definition map_has (key : string) (m : list (string * node)) : bool :=
  existsb (fun kv => String.eqb (fst kv) key) m.

(** [links] is a JS [Set] of the JSON text of [{source:{id}, target:{id}}];
    the text determines the pair and the pair the text, so the set is kept
    as an insertion-ordered list of pairs without repetition. *)
Definition set_add (e : link) (s : list link) : list link :=
  if has link_eqb e s then s else s ++ [e].

(** ** The depth limit

    The handler passes [req.body.k] on as it finds it, and [crawlKHops]
    reads it in two comparisons only, [next.depth > k] and [depth < k],
    which take it as a number: any number JSON can hold, and what the
    conversion to a number makes of any other value ([NaN] for a text that
    is no numeral or for an object, an infinity for a numeral out of
    range; a value whose conversion throws is a fault of the first
    iteration). A finite number is kept as the rational it is, in lowest
    terms. *)
Inductive number :=
| Finite (q : Qc)
| PlusInfinity
| MinusInfinity
| NaN.

(** An integer as a number. *)
Definition int (z : Z) : number := Finite (Qc_of_Z z).

(** [d > k] for a depth [d]; every comparison with [NaN] is false. *)
Definition exceeds (d : Z) (k : number) : bool :=
  match k with
  | Finite q => bool_decide (q < Qc_of_Z d)%Qc
  | PlusInfinity => false
  | MinusInfinity => true
  | NaN => false
  end.

(** [d < k] *)
Definition below (d : Z) (k : number) : bool :=
  match k with
  | Finite q => bool_decide (Qc_of_Z d < q)%Qc
  | PlusInfinity => true
  | MinusInfinity => false
  | NaN => false
  end.

(** ** The crawl state

    The locals of [crawlKHops] ([links_set] is its [links]), the
    process-wide [urlCache], and two histories that the code does not keep
    but its effects determine: the calls of [getPageInfo] in the order they
    are started, and every entry ever put on [queue]. *)
Record state := {
  nodes : list (string * node);
  links_set : list link;
  queue : list entry;
  processedCount : nat;
  urlCache : gset string;
  dispatched : list entry;
  enqueued : list entry
}.

Inductive outcome :=
| Completed (st : state)     (* the loop was left, [graphData] is built *)
| Aborted (st : state).      (* the [catch] of [crawlKHops] ran *)

Definition final (o : outcome) : state :=
  match o with Completed st | Aborted st => st end.

Inductive response :=
| Json (g : graphData)
| Status500.

Section Crawler.

Variable L : Limits.

(** [new URL(s).toString()], [None] when the constructor throws. *)
Variable normalize : string -> option string.

(** The browser's behaviour on a url. *)
Variable browse : string -> browser_run.

(** [new URL(favicon, new URL(url).origin).toString()], [None] when it throws. *)
Variable resolveFavicon : string -> string -> option string.

(** [faulty i]: the runtime raises an exception the code does not handle
    itself as the [i]-th iteration of the crawl loop starts. (A fault
    later in an iteration is answered in the same way; it finds the urls
    of the batch being filled in [urlCache] already.) *)
Variable faulty : nat -> bool.

(** The filter of [allLinks]. *)
Definition keepLink (href : string) : bool :=
  negb (String.eqb href "") &&
  startsWith href "http" &&
  negb (includes href "#") &&
  negb (endsWith href ".pdf") &&
  negb (endsWith href ".jpg") &&
  negb (endsWith href ".png") &&
  negb (includes href "javascript:") &&
  negb (includes href "mailto:").

Definition uniqueLinks (hrefs : list string) : list string :=
  take (LINKS_PER_PAGE L) (unique (filter (fun h => keepLink h = true) hrefs)).

Definition getPageInfo (u : string) : settled pageInfo :=
  match browse u with
  | BrowserFails => rejected
  | PageThrows => fulfilled {| title := u; links := []; favicon := None |}
  | PageEvaluates d =>
      let fav :=
        if negb (String.eqb (doc_favicon d) "") && startsWith (doc_favicon d) "/"
        then resolveFavicon (doc_favicon d) u
        else Some (doc_favicon d) in
      fulfilled {| title := doc_title d;
                   links := uniqueLinks (doc_hrefs d);
                   favicon := fav |}
  end.

(** [{ id: url, title: pageInfo.title || url, favicon: pageInfo.favicon }] *)
Definition nodeOf (u : string) (info : pageInfo) : node :=
  {| id := u;
     node_title := if String.eqb (title info) "" then u else title info;
     node_favicon := favicon info |}.

Definition isFulfilled {A} (r : settled A) : bool :=
  match r with fulfilled _ => true | rejected => false end.

(** The promise of the fetch of an entry is fulfilled: [getPageInfo]
    returned, with the page or with the value of its [catch]. *)
Definition settles (e : entry) : Prop := isFulfilled (getPageInfo (url e)) = true.

#[global] Instance settles_dec e : Decision (settles e).
Proof. unfold settles. apply _. Defined.

Section Crawl.

Variable startUrl : string.
Variable k : number.

(** The inner [while]: fill [batch] from the head of [queue]. *)
Fixpoint fillBatch (batch : list entry) (queue : list entry)
         (cache : gset string) : list entry * list entry * gset string :=
  if (CONCURRENT_FETCHES L <=? length batch)%nat then (batch, queue, cache)
  else
    match queue with
    | [] => (batch, [], cache)
    | next :: queue' =>
        if exceeds (depth next) k then fillBatch batch queue' cache
        else
          match normalize (url next) with
          | None => fillBatch batch queue' cache
          | Some normalizedUrl =>
              if String.eqb normalizedUrl startUrl
                 || negb (bool_decide (normalizedUrl ∈ cache))
              then fillBatch (batch ++ [{| url := normalizedUrl; depth := depth next |}])
                             queue' ({[normalizedUrl]} ∪ cache)
              else fillBatch batch queue' cache
          end
    end.

(** [async ({ url, depth }) => ({ url, depth, pageInfo: await getPageInfo(url) })] *)
Definition fetchEntry (e : entry) : settled (entry * pageInfo) :=
  match getPageInfo (url e) with
  | fulfilled info => fulfilled (e, info)
  | rejected => rejected
  end.

(** [await Promise.allSettled(batch.map(...))] *)
Definition fetchBatch (batch : list entry) : list (settled (entry * pageInfo)) :=
  map fetchEntry batch.

(** First pass: add nodes. *)
Definition addNode (nodes : list (string * node))
           (result : settled (entry * pageInfo)) : list (string * node) :=
  match result with
  | fulfilled (e, info) => map_set (url e) (nodeOf (url e) info) nodes
  | rejected => nodes
  end.

(** Second pass, the body of [for (const linkedUrl of pageInfo.links)]. *)
Definition addLink (src : entry) (st : state) (linkedUrl : string) : state :=
  match normalize linkedUrl with
  | None => st
  | Some normalizedLinkedUrl =>
      let links' := set_add {| source := url src; target := normalizedLinkedUrl |}
                            (links_set st) in
      if bool_decide (normalizedLinkedUrl ∈ urlCache st)
      then {| nodes := nodes st; links_set := links'; queue := queue st;
              processedCount := processedCount st; urlCache := urlCache st;
              dispatched := dispatched st; enqueued := enqueued st |}
      else
        let pushed := {| url := normalizedLinkedUrl; depth := depth src + 1 |} in
        {| nodes := nodes st; links_set := links'; queue := queue st ++ [pushed];
           processedCount := processedCount st; urlCache := urlCache st;
           dispatched := dispatched st; enqueued := enqueued st ++ [pushed] |}
  end.

(** Second pass: add links and queue new urls. *)
Definition addLinks (st : state) (result : settled (entry * pageInfo)) : state :=
  match result with
  | fulfilled (e, info) =>
      let st' := if below (depth e) k then fold_left (addLink e) (links info) st else st in
      {| nodes := nodes st'; links_set := links_set st'; queue := queue st';
         processedCount := S (processedCount st'); urlCache := urlCache st';
         dispatched := dispatched st'; enqueued := enqueued st' |}
  | rejected => st
  end.

(** One iteration of the outer [while] past its condition; the flag is
    [false] for the [break] on an empty batch. *)
Definition iteration (st : state) : state * bool :=
  let '(batch, queue', cache') := fillBatch [] (queue st) (urlCache st) in
  match batch with
  | [] =>
      ({| nodes := nodes st; links_set := links_set st; queue := queue';
          processedCount := processedCount st; urlCache := cache';
          dispatched := dispatched st; enqueued := enqueued st |}, false)
  | _ :: _ =>
      let results := fetchBatch batch in
      let st1 :=
        {| nodes := fold_left addNode results (nodes st);
           links_set := links_set st; queue := queue';
           processedCount := processedCount st; urlCache := cache';
           dispatched := dispatched st ++ batch; enqueued := enqueued st |} in
      (fold_left addLinks results st1, true)
  end.

(** [queue.length > 0 && processedCount < LIMITS.TOTAL_NODES] *)
Definition loopCondition (st : state) : bool :=
  negb (length (queue st) =? 0)%nat && (processedCount st <? TOTAL_NODES L)%nat.

(** The outer [while] inside the [try]; [i] counts the iterations and
    [fuel] bounds them: [None] is a run cut short by the bound, which
    [crawlLoop_terminates] shows never happens with enough fuel. *)
Fixpoint crawlLoop (fuel : nat) (i : nat) (st : state) : option outcome :=
  match fuel with
  | O => None
  | S fuel' =>
      if loopCondition st then
        if faulty i then Some (Aborted st)
        else
          let '(st', continue) := iteration st in
          if continue then crawlLoop fuel' (S i) st' else Some (Completed st')
      else Some (Completed st)
  end.

Definition initial (cache : gset string) : state :=
  {| nodes := []; links_set := [];
     queue := [{| url := startUrl; depth := 0 |}];
     processedCount := 0; urlCache := cache;
     dispatched := []; enqueued := [{| url := startUrl; depth := 0 |}] |}.

Definition run (fuel : nat) (cache : gset string) : option outcome :=
  crawlLoop fuel 0 (initial cache).

(** ** Invariants of the crawl loop *)

Definition seed : entry := {| url := startUrl; depth := 0 |}.

Definition within_budget (st : state) : Prop :=
  (processedCount st <= TOTAL_NODES L + CONCURRENT_FETCHES L - 1)%nat /\
  (length (nodes st) <= processedCount st)%nat.

(** [kv] is the node the first pass sets for the fetch of [e]. *)
Definition node_of_fetch (e : entry) (kv : string * node) : Prop :=
  exists info, getPageInfo (url e) = fulfilled info /\
               kv = (url e, nodeOf (url e) info).

(** [x] is a link the second pass adds for the fetch of [e]. *)
Definition edge_of_fetch (e : entry) (x : link) : Prop :=
  exists info href,
    getPageInfo (url e) = fulfilled info /\ below (depth e) k = true /\
    href ∈ links info /\ normalize href = Some (target x) /\
    source x = url e.

(** What the accumulated state records, in terms of the fetches made
    since the session started with the cache [cache0]. *)
Definition recorded (cache0 : gset string) (st : state) : Prop :=
  (forall kv, kv ∈ nodes st <-> exists e, e ∈ dispatched st /\ node_of_fetch e kv) /\
  (forall x, x ∈ links_set st <-> exists e, e ∈ dispatched st /\ edge_of_fetch e x) /\
  urlCache st = list_to_set (url <$> dispatched st) ∪ cache0 /\
  (forall e, e ∈ dispatched st ->
             exceeds (depth e) k = false /\ (url e = startUrl \/ url e ∉ cache0)) /\
  (forall q, q ∈ queue st -> q ∈ enqueued st) /\
  (forall q, q ∈ enqueued st -> q = seed \/ below (depth q - 1) k = true).

Definition depth_le (a b : entry) : Prop := depth a <= depth b.

(** No entry of [l2] is more than one level below an entry of [l1]. *)
Definition within_one (l1 l2 : list entry) : Prop :=
  forall x y, x ∈ l1 -> y ∈ l2 -> depth y <= depth x + 1.

(** Breadth-first order: the fetches made and the frontier behind them
    are in non-decreasing depth, and the frontier spans two levels at most. *)
Definition bfs_ordered (st : state) : Prop :=
  StronglySorted depth_le (dispatched st ++ queue st) /\
  within_one (queue st) (queue st).

(** The same during the second pass, [rest] being the entries of the
    batch whose results are still to be handled. *)
Definition bfs_pass (rest : list entry) (st : state) : Prop :=
  bfs_ordered st /\
  StronglySorted depth_le rest /\
  within_one rest (queue st) /\
  within_one rest (dispatched st) /\
  (forall b, b ∈ rest -> b ∈ dispatched st).

(** No url is fetched twice: every fetched url is in the cache, the
    frontier holds normalized urls, and the seed is on the frontier
    only until the first fetch. *)
Definition fetched_once (fetched frontier : list entry) (cache : gset string) : Prop :=
  NoDup (url <$> fetched) /\
  (forall e, e ∈ fetched -> url e ∈ cache) /\
  (forall x, x ∈ frontier -> normalize (url x) = Some (url x)) /\
  (fetched = [] -> frontier = [seed] \/ frontier = []) /\
  (fetched <> [] -> startUrl ∈ cache /\ forall x, x ∈ frontier -> url x <> startUrl).

Definition once (st : state) : Prop :=
  fetched_once (dispatched st) (queue st) (urlCache st).

(** The test of the inner loop on a frontier entry: it goes to the batch. *)
Definition dispatchable (cache : gset string) (e : entry) : Prop :=
  exceeds (depth e) k = false /\
  exists n, normalize (url e) = Some n /\ (n = startUrl \/ n ∉ cache).

(** [processedCount] counts the fetches made whose promise was fulfilled. *)
Definition counted (st : state) : Prop :=
  processedCount st = length (filter settles (dispatched st)).

(** How the loop is left when no fault occurs. *)
Definition left_normally (o : outcome) : Prop :=
  o = Completed (final o) /\
  (queue (final o) = [] \/ (TOTAL_NODES L <= processedCount (final o))%nat).

Definition frontier_logged (st : state) : Prop :=
  (forall q, q ∈ queue st -> q ∈ enqueued st) /\
  (forall q, q ∈ enqueued st -> q = seed \/ below (depth q - 1) k = true).

End Crawl.

(** [const graphData = {...}] after the loop, and the value of the [catch]. *)
Definition buildGraph (o : outcome) : graphData :=
  match o with
  | Completed st =>
      {| graph_nodes := map snd (nodes st);
         graph_links :=
           filter (fun l => map_has (source l) (nodes st) = true
                            ∧ map_has (target l) (nodes st) = true)
                  (links_set st) |}
  | Aborted _ => {| graph_nodes := []; graph_links := [] |}
  end.

Definition crawlKHops (fuel : nat) (startUrl : string) (k : number)
           (cache : gset string) : option (graphData * gset string) :=
  match run startUrl k fuel cache with
  | Some o => Some (buildGraph o, urlCache (final o))
  | None => None
  end.

(** The session a [POST /api/crawl] request starts: the cache after the
    optional reset and the removal of the seed, and the seed itself;
    [None] when [new URL(url)] throws in the handler. *)
Definition session (u : string) (reset : bool) (cache : gset string)
  : option (string * gset string) :=
  let cache1 := if reset then ∅ else cache in
  match normalize u with
  | None => None
  | Some normalizedUrl => Some (normalizedUrl, cache1 ∖ {[normalizedUrl]})
  end.

(** [app.post('/api/crawl', ...)]; [k] and [reset] are what the
    destructuring of the body gives, defaults applied. *)
Definition api_crawl (fuel : nat) (u : string) (k : number) (reset : bool)
           (cache : gset string) : option (response * gset string) :=
  match session u reset cache with
  | None => Some (Status500, if reset then ∅ else cache)
  | Some (normalizedUrl, cache') =>
      match crawlKHops fuel normalizedUrl k cache' with
      | Some (graph, cache'') => Some (Json graph, cache'')
      | None => None
      end
  end.

End Crawler.

(** ** Concrete environments

    A url parser that accepts what starts with [http] and returns it as it
    is, a favicon resolver, the absence of runtime faults, a fault in a given
    iteration, and two sites. *)

Definition parse (s : string) : option string :=
  if startsWith s "http" then Some s else None.

Definition resolve (fav page : string) : option string := Some ("http://cdn" ++ fav)%string.

Definition no_fault (i : nat) : bool := false.

Definition fault_at (n i : nat) : bool := (i =? n)%nat.

(** The site of the specification's first scenario: a links to b and c, b
    links to d, and the fetch of c times out. *)
Definition site (u : string) : browser_run :=
  if String.eqb u "http://a/" then
    PageEvaluates {| doc_title := "A"; doc_hrefs := ["http://b/"; "http://c/"; "#top"];
                     doc_favicon := "/favicon.ico" |}
  else if String.eqb u "http://b/" then
    PageEvaluates {| doc_title := "B"; doc_hrefs := ["http://d/"; "http://a/"];
                     doc_favicon := "http://b/icon.png" |}
  else if String.eqb u "http://c/" then PageThrows
  else BrowserFails.

(** A site where every page links to twenty pages of its own. *)
Definition letters : list string :=
  ["a"; "b"; "c"; "d"; "e"; "f"; "g"; "h"; "i"; "j";
   "k"; "l"; "m"; "n"; "o"; "p"; "q"; "r"; "s"; "t"].

Definition fan (u : string) : browser_run :=
  PageEvaluates {| doc_title := "page";
                   doc_hrefs := map (fun c => (u ++ c)%string) letters;
                   doc_favicon := "http://s/favicon.ico" |}.

(** The outcome of a run that is known to return. *)
Definition returned (r : option outcome) : outcome :=
  match r with
  | Some o => o
  | None => Aborted {| nodes := []; links_set := []; queue := []; processedCount := 0;
                       urlCache := ∅; dispatched := []; enqueued := [] |}
  end.

Definition site_outcome (k : number) (cache : gset string) : outcome :=
  returned (run LIMITS parse site resolve no_fault "http://a/" k 10 cache).

(** The same crawl with a fault of the runtime in the second iteration. *)
Definition site_aborted : outcome :=
  returned (run LIMITS parse site resolve (fault_at 1) "http://a/" (int 1) 10 ∅).

(** A cache left by an earlier session that visited a and b. *)
Definition visited_before : gset string := {["http://a/"; "http://b/"]}.

Definition site_revisited : outcome :=
  returned (run LIMITS parse site resolve no_fault "http://a/" (int 2) 10
                (visited_before ∖ {["http://a/"]})).

(** One half, a depth limit that is no integer. *)
Definition half : number := Finite (Q2Qc (1 # 2)).

Definition fan_outcome : outcome :=
  returned (run LIMITS parse fan resolve no_fault "http://s/" (int 2) 20 ∅).

(** ** The rest of the server and the client

    The request interception and the favicon lookup of [getPageInfo], paths
    in a set of links, and the merge of a response into the graph the client
    shows ([handleSubmit] of the React component). *)

(** [page.on('request', ...)]: [true] is [req.continue()], [false] is
    [req.abort()]. *)
Definition interceptRequest (resourceType reqUrl : string) : bool :=
  if String.eqb resourceType "image"
     && negb (includes reqUrl "favicon") && negb (includes reqUrl "icon")
  then false
  else if has String.eqb resourceType ["stylesheet"; "font"; "media"]
  then false
  else true.

(** The selectors [getFavicon] tries, in the order it tries them; [attr a v]
    is the selector text [link[a="v"]], [attrHas] its [*=] form. *)
Definition quote : string := String "034"%char "".

Definition attr (a v : string) : string :=
  ("link[" ++ a ++ "=" ++ quote ++ v ++ quote ++ "]")%string.

Definition attrHas (a v : string) : string :=
  ("link[" ++ a ++ "*=" ++ quote ++ v ++ quote ++ "]")%string.

Definition selectors : list string :=
  [attr "rel" "icon"; attr "rel" "shortcut icon";
   attr "rel" "apple-touch-icon"; attr "rel" "apple-touch-icon-precomposed";
   attrHas "rel" "icon"; attr "type" "image/x-icon";
   attr "type" "image/png"; attr "type" "image/gif"].

(** The loop of [getFavicon]; [querySelector sel] is the [href] of the
    first element the selector matches ([Some ""] when it has none), [None]
    when nothing matches. *)
Fixpoint firstHref (querySelector : string -> option string) (sels : list string)
  : option string :=
  match sels with
  | [] => None
  | sel :: sels' =>
      match querySelector sel with
      | Some href => if String.eqb href "" then firstHref querySelector sels' else Some href
      | None => firstHref querySelector sels'
      end
  end.

Definition getFavicon (querySelector : string -> option string) : string :=
  match firstHref querySelector selectors with
  | Some href => href
  | None => "/favicon.ico"
  end.

(** A path of [n] links of [ls] from one url to another. *)
Inductive path (ls : list link) : nat -> string -> string -> Prop :=
| path_here u : path ls 0 u u
| path_step n u v w :
    path ls n u v -> {| source := v; target := w |} ∈ ls -> path ls (S n) u w.

(** [graphData] of the client: the links hold the node objects. The
    coordinates the force layout writes into the node objects play no part
    in the merge and are left out. *)
Record clientGraph := { cnodes : list node; clinks : list (node * node) }.

Fixpoint map_get (key : string) (m : list (string * node)) : option node :=
  match m with
  | [] => None
  | (k', v') :: m' => if String.eqb k' key then Some v' else map_get key m'
  end.

(** [new Map(nodes.map(node => [node.id, node]))] *)
Definition nodeMap (ns : list node) : list (string * node) :=
  fold_left (fun m n => map_set (id n) n m) ns [].

(** [link.source.id || link.source] in a template literal, for a link that
    holds node objects. *)
Definition idOr (n : node) : string :=
  if String.eqb (id n) "" then "[object Object]" else id n.

Definition linkKey (l : node * node) : string :=
  (idOr (fst l) ++ "-" ++ idOr (snd l))%string.

(** [response.data.nodes.forEach(...)]: a node is added when its id is new. *)
Definition addNewNode (m : list (string * node)) (n : node) : list (string * node) :=
  if map_has (id n) m then m else map_set (id n) n m.

(** The first [filter] of [newLinks]: both ids non-empty and known. *)
Definition knownEnds (m : list (string * node)) (l : link) : bool :=
  negb (String.eqb (source l) "") && negb (String.eqb (target l) "") &&
  map_has (source l) m && map_has (target l) m.

(** The [map] of [newLinks]: the two node objects ([get] finds them after
    the first filter). *)
Definition toObjects (m : list (string * node)) (l : link) : option (node * node) :=
  match map_get (source l) m, map_get (target l) m with
  | Some s, Some t => Some (s, t)
  | _, _ => None
  end.

(** The second [filter] of [newLinks]. *)
Definition newKey (existingLinks : list string) (l : node * node) : bool :=
  negb (has String.eqb (id (fst l) ++ "-" ++ id (snd l))%string existingLinks).

(** The body of the [try] of [handleSubmit] for a response with nodes and links. *)
Definition mergeResponse (g : clientGraph) (data : graphData) : clientGraph :=
  let existingNodes := nodeMap (cnodes g) in
  let existingLinks := map linkKey (clinks g) in
  let existingNodes' := fold_left addNewNode (graph_nodes data) existingNodes in
  let newLinks :=
    List.filter (newKey existingLinks)
      (omap (toObjects existingNodes')
            (List.filter (knownEnds existingNodes') (graph_links data))) in
  {| cnodes := map snd existingNodes'; clinks := clinks g ++ newLinks |}.

(** [handleSubmit]: an error response leaves the graph as it is. *)
Definition handleSubmit (g : clientGraph) (r : response) : clientGraph :=
  match r with
  | Json data => mergeResponse g data
  | Status500 => g
  end.

(** The graph before the first request. *)
Definition emptyGraph : clientGraph := {| cnodes := []; clinks := [] |}.

(** The client graph is well formed: distinct ids, links between its nodes. *)
Definition wellFormed (g : clientGraph) : Prop :=
  NoDup (map id (cnodes g)) /\
  forall l, l ∈ clinks g -> fst l ∈ cnodes g /\ snd l ∈ cnodes g.

(** ** Further invariants of the crawl and of the client *)

(** The node map has one entry per key and the link set no repetition. *)
Definition distinct (st : state) : Prop :=
  NoDup (fst <$> nodes st) /\ NoDup (links_set st).

(** The frontier and the link set grow by at most LINKS_PER_PAGE entries
    per processed result. *)
Definition sized (L : Limits) (st : state) : Prop :=
  (length (queue st) <= length (enqueued st))%nat /\
  (length (enqueued st) <= 1 + LINKS_PER_PAGE L * processedCount st)%nat /\
  (length (links_set st) <= LINKS_PER_PAGE L * processedCount st)%nat.

(** Where the entries come from: a fetched entry was taken from an entry
    put on the frontier, with its depth; the frontier started with the seed
    and every entry pushed later is a link of a page fetched one level
    above; depths are never negative. *)
Definition lineage (L : Limits) (normalize : string -> option string)
           (browse : string -> browser_run)
           (resolveFavicon : string -> string -> option string)
           (startUrl : string) (k : number) (st : state) : Prop :=
  (forall e, e ∈ dispatched st ->
             exists q, q ∈ enqueued st /\ normalize (url q) = Some (url e) /\
                       depth e = depth q) /\
  (exists pushed,
      enqueued st = seed startUrl :: pushed /\
      forall q, q ∈ pushed ->
                exists p, p ∈ dispatched st /\
                          edge_of_fetch L normalize browse resolveFavicon k p
                                        {| source := url p; target := url q |} /\
                          depth q = depth p + 1) /\
  (forall q, q ∈ enqueued st -> 0 <= depth q) /\
  (forall q, q ∈ queue st -> q ∈ enqueued st).

(** Every entry ever put on the frontier holds a normalized url. *)
Definition enqueued_normal (normalize : string -> option string) (st : state) : Prop :=
  forall q, q ∈ enqueued st -> normalize (url q) = Some (url q).

(** A node map of the client is keyed by the ids of its nodes, once each. *)
Definition keyed (m : list (string * node)) : Prop :=
  NoDup (fst <$> m) /\ forall kv, kv ∈ m -> kv.1 = id kv.2.

(** The link of the response a link of the client stands for. *)
Definition ends (l : node * node) : link :=
  {| source := id (fst l); target := id (snd l) |}.

(** Every entry ever put on the frontier is still on it, or its url is in
    the cache, or it lies deeper than k (and is dropped when popped). *)
Definition frontier_accounted (k : number) (st : state) : Prop :=
  forall q, q ∈ enqueued st ->
            q ∈ queue st \/ url q ∈ urlCache st \/ exceeds (depth q) k = true.

(** The links of the pages of [done] fetched below depth k were followed:
    the target is in the cache or was put on the frontier one level below. *)
Definition links_followed (L : Limits) (normalize : string -> option string)
           (browse : string -> browser_run)
           (resolveFavicon : string -> string -> option string)
           (k : number) (done : list entry) (st : state) : Prop :=
  forall e info href t,
    e ∈ done -> getPageInfo L browse resolveFavicon (url e) = fulfilled info ->
    below (depth e) k = true -> href ∈ links info -> normalize href = Some t ->
    t ∈ urlCache st \/ {| url := t; depth := depth e + 1 |} ∈ enqueued st.

Definition explored (L : Limits) (normalize : string -> option string)
           (browse : string -> browser_run)
           (resolveFavicon : string -> string -> option string)
           (k : number) (st : state) : Prop :=
  frontier_accounted k st /\
  links_followed L normalize browse resolveFavicon k (dispatched st) st.
(** What the second pass keeps: the cache, and what is on the frontier. *)
Definition grows (st st' : state) : Prop :=
  urlCache st' = urlCache st /\
  (forall q, q ∈ enqueued st -> q ∈ enqueued st') /\
  (forall q, q ∈ queue st -> q ∈ queue st') /\
  (forall q, q ∈ enqueued st' -> q ∈ enqueued st \/ q ∈ queue st').

(** What [getPageInfo] returns for the root of the site. *)
Definition page_a : pageInfo :=
  {| title := "A"; links := ["http://b/"; "http://c/"];
     favicon := Some "http://cdn/favicon.ico" |}.

(** * The two comparisons with the depth limit *)

Lemma below_int d z : below d (int z) = true <-> d < z.
Proof. unfold below, int. by rewrite bool_decide_eq_true, <- Z2Qc_inj_lt. Qed.

Lemma exceeds_int d z : exceeds d (int z) = true <-> z < d.
Proof. unfold exceeds, int. by rewrite bool_decide_eq_true, <- Z2Qc_inj_lt. Qed.

Lemma not_exceeds_int d z : exceeds d (int z) = false <-> d <= z.
Proof. rewrite <- not_true_iff_false, exceeds_int. lia. Qed.

(** A depth below the limit does not exceed it. *)
Lemma below_not_exceeds d k : below d k = true -> exceeds d k = false.
Proof.
  destruct k as [q| | |]; simpl; try done.
  rewrite bool_decide_eq_true, bool_decide_eq_false.
  intros H1 H2. by apply (Qclt_not_eq q q); [apply Qclt_trans with (Qc_of_Z d)|].
Qed.

(** * Proof rules for the two loops *)

Section Rules.

Variable L : Limits.
Variable normalize : string -> option string.
Variable browse : string -> browser_run.
Variable resolveFavicon : string -> string -> option string.
Variable faulty : nat -> bool.
Variable startUrl : string.
Variable k : number.

Abbreviation fillBatch := (fillBatch L normalize startUrl k).
Abbreviation iteration := (iteration L normalize browse resolveFavicon startUrl k).
Abbreviation crawlLoop := (crawlLoop L normalize browse resolveFavicon faulty startUrl k).
Abbreviation getPageInfo := (getPageInfo L browse resolveFavicon).
Abbreviation fetchBatch := (fetchBatch L browse resolveFavicon).
Abbreviation fetchEntry := (fetchEntry L browse resolveFavicon).
Abbreviation addLink := (addLink normalize).
Abbreviation addLinks := (addLinks normalize k).

(** An invariant of the inner loop: kept when the head of the queue is
    skipped, kept when it is moved to the batch. *)
Lemma fillBatch_rule (P : list entry -> list entry -> gset string -> Prop) :
  (forall b next q c,
      P b (next :: q) c -> (length b < CONCURRENT_FETCHES L)%nat ->
      (exceeds (depth next) k = true \/ normalize (url next) = None \/
       exists n, normalize (url next) = Some n /\ n <> startUrl /\ n ∈ c) ->
      P b q c) ->
  (forall b next q c n,
      P b (next :: q) c -> (length b < CONCURRENT_FETCHES L)%nat ->
      exceeds (depth next) k = false -> normalize (url next) = Some n ->
      (n = startUrl \/ n ∉ c) ->
      P (b ++ [{| url := n; depth := depth next |}]) q ({[n]} ∪ c)) ->
  forall q b c b' q' c',
    P b q c -> fillBatch b q c = (b', q', c') -> P b' q' c'.
Proof.
  intros Hskip Htake q.
  induction q as [|next q IH]; intros b c b' q' c' HP Hf; simpl in Hf.
  - destruct (CONCURRENT_FETCHES L <=? length b)%nat; congruence.
  - destruct (CONCURRENT_FETCHES L <=? length b)%nat eqn:Hfull; [congruence|].
    apply Nat.leb_gt in Hfull.
    destruct (exceeds (depth next) k) eqn:Hd.
    { eapply IH; [|exact Hf]. eapply Hskip; eauto. }
    destruct (normalize (url next)) as [n|] eqn:Hn.
    2:{ eapply IH; [|exact Hf]. eapply Hskip; eauto. }
    destruct (String.eqb n startUrl || negb (bool_decide (n ∈ c))) eqn:Hc.
    + eapply IH; [|exact Hf]. eapply Htake; eauto.
      apply orb_true_iff in Hc as [Hc|Hc].
      * left. by apply String.eqb_eq.
      * right. apply negb_true_iff, bool_decide_eq_false in Hc. done.
    + eapply IH; [|exact Hf]. eapply Hskip; eauto. right. right.
      apply orb_false_iff in Hc as [Hc1 Hc2].
      exists n. split; [done|]. split.
      * by apply String.eqb_neq.
      * apply negb_false_iff, bool_decide_eq_true in Hc2. done.
Qed.

(** The inner loop is left with a full batch or an empty queue. *)
Lemma fillBatch_exit q : forall b c b' q' c',
  fillBatch b q c = (b', q', c') ->
  (CONCURRENT_FETCHES L <= length b')%nat \/ q' = [].
Proof.
  induction q as [|next q IH]; intros b c b' q' c' Hf; simpl in Hf.
  - destruct (CONCURRENT_FETCHES L <=? length b)%nat eqn:Hfull.
    + apply Nat.leb_le in Hfull. left. congruence.
    + right. congruence.
  - destruct (CONCURRENT_FETCHES L <=? length b)%nat eqn:Hfull.
    { apply Nat.leb_le in Hfull. left. congruence. }
    destruct (exceeds (depth next) k); [eauto|].
    destruct (normalize (url next)); [|eauto].
    destruct (_ || _); eauto.
Qed.

Lemma crawlLoop_S fuel i st :
  crawlLoop (S fuel) i st =
  if loopCondition L st then
    if faulty i then Some (Aborted st)
    else if (iteration st).2 then crawlLoop fuel (S i) (iteration st).1
         else Some (Completed (iteration st).1)
  else Some (Completed st).
Proof.
  simpl. destruct (loopCondition L st); [|done].
  destruct (faulty i); [done|]. by destruct (iteration st) as [st' [|]].
Qed.

(** An invariant of the iterations is an invariant of the crawl loop. *)
Lemma crawlLoop_rule (P : state -> Prop) :
  (forall st, P st -> loopCondition L st = true -> P (iteration st).1) ->
  forall fuel i st o, P st -> crawlLoop fuel i st = Some o -> P (final o).
Proof.
  intros Hstep fuel.
  induction fuel as [|fuel IH]; intros i st o HP Hrun; [done|].
  rewrite crawlLoop_S in Hrun.
  destruct (loopCondition L st) eqn:Hcond.
  - destruct (faulty i); [by simplify_eq|].
    specialize (Hstep st HP Hcond).
    destruct (iteration st) as [st' [|]]; simpl in *.
    + exact (IH _ _ _ Hstep Hrun).
    + by simplify_eq.
  - by simplify_eq.
Qed.

(** ** What the two passes leave alone *)

Lemma addLink_frame src st l :
  nodes (addLink src st l) = nodes st /\
  processedCount (addLink src st l) = processedCount st /\
  urlCache (addLink src st l) = urlCache st /\
  dispatched (addLink src st l) = dispatched st.
Proof.
  unfold addLink. destruct (normalize l); [|done].
  by destruct (bool_decide _).
Qed.

Lemma addLink_fold_frame src ls : forall st,
  nodes (fold_left (addLink src) ls st) = nodes st /\
  processedCount (fold_left (addLink src) ls st) = processedCount st /\
  urlCache (fold_left (addLink src) ls st) = urlCache st /\
  dispatched (fold_left (addLink src) ls st) = dispatched st.
Proof.
  induction ls as [|l ls IH]; intros st; simpl; [done|].
  destruct (IH (addLink src st l)) as (-> & -> & -> & ->).
  apply addLink_frame.
Qed.

Lemma addLinks_frame st r :
  nodes (addLinks st r) = nodes st /\
  urlCache (addLinks st r) = urlCache st /\
  dispatched (addLinks st r) = dispatched st.
Proof.
  destruct r as [[e info]|]; simpl; [|done].
  destruct (below (depth e) k); [|done].
  destruct (addLink_fold_frame e (links info) st) as (-> & _ & -> & ->). done.
Qed.

Lemma addLinks_fold_frame rs : forall st,
  nodes (fold_left addLinks rs st) = nodes st /\
  urlCache (fold_left addLinks rs st) = urlCache st /\
  dispatched (fold_left addLinks rs st) = dispatched st.
Proof.
  induction rs as [|r rs IH]; intros st; simpl; [done|].
  destruct (IH (addLinks st r)) as (-> & -> & ->).
  apply addLinks_frame.
Qed.

(** ** The node budget *)

Lemma map_set_length key v m : (length (map_set key v m) <= S (length m))%nat.
Proof.
  induction m as [|[k' v'] m IH]; simpl; [lia|].
  destruct (String.eqb k' key); simpl; lia.
Qed.

(** Every fulfilled result is counted once, a rejected one is not. *)
Lemma addLinks_fold_count b : forall st,
  processedCount (fold_left addLinks (fetchBatch b) st)
  = (processedCount st + length (filter (settles L browse resolveFavicon) b))%nat.
Proof.
  induction b as [|e b IH]; intros st; simpl; [lia|].
  rewrite IH.
  destruct (decide (settles L browse resolveFavicon e)) as [Hs|Hs].
  - rewrite filter_cons_True by done. unfold settles in Hs. unfold fetchEntry.
    destruct (getPageInfo (url e)) as [info|]; [|done]. simpl.
    destruct (below (depth e) k); simpl; [|lia].
    destruct (addLink_fold_frame e (links info) st) as (_ & -> & _). lia.
  - rewrite filter_cons_False by done. unfold settles in Hs. unfold fetchEntry.
    destruct (getPageInfo (url e)) as [info|]; [by destruct Hs|]. simpl. lia.
Qed.

Lemma addNode_fold_length b : forall ns,
  (length (fold_left (addNode) (fetchBatch b) ns)
   <= length ns + length (filter (settles L browse resolveFavicon) b))%nat.
Proof.
  induction b as [|e b IH]; intros ns; simpl; [lia|].
  etrans; [apply IH|].
  destruct (decide (settles L browse resolveFavicon e)) as [Hs|Hs].
  - rewrite filter_cons_True by done. unfold settles in Hs. unfold fetchEntry.
    destruct (getPageInfo (url e)) as [info|]; [|done]. simpl.
    pose proof (map_set_length (url e) (nodeOf (url e) info) ns). lia.
  - rewrite filter_cons_False by done. unfold settles in Hs. unfold fetchEntry.
    destruct (getPageInfo (url e)) as [info|]; [by destruct Hs|]. simpl. lia.
Qed.

Lemma fillBatch_length q b c b' q' c' :
  fillBatch b q c = (b', q', c') ->
  (length b' <= Nat.max (length b) (CONCURRENT_FETCHES L))%nat.
Proof.
  intros Hf.
  apply (fillBatch_rule
           (fun b1 _ _ => (length b1 <= Nat.max (length b) (CONCURRENT_FETCHES L))%nat))
    with (q := q) (b := b) (c := c) (q' := q') (c' := c'); auto.
  - intros b1 next q1 c1 n _ Hlt _ _ _. rewrite length_app. simpl. lia.
  - lia.
Qed.

Lemma within_budget_iteration st :
  within_budget L st -> loopCondition L st = true -> within_budget L (iteration st).1.
Proof.
  intros [Hp Hn] Hcond. unfold iteration.
  destruct (fillBatch [] (queue st) (urlCache st)) as [[b q'] c'] eqn:Hf.
  destruct b as [|e b]; [done|]. cbn [fst].
  apply fillBatch_length in Hf. simpl in Hf.
  apply andb_true_iff in Hcond as [_ Hlt]. apply Nat.ltb_lt in Hlt.
  remember (e :: b) as batch eqn:Hbatch.
  assert (length batch <= CONCURRENT_FETCHES L)%nat as Hlen by (subst; simpl; lia).
  pose proof (length_filter (settles L browse resolveFavicon) batch) as Hle.
  pose proof (addNode_fold_length batch (nodes st)) as Hadd.
  match goal with |- within_budget _ (fold_left _ _ ?s) =>
    destruct (addLinks_fold_frame (fetchBatch batch) s) as (Hnodes & _ & _);
    pose proof (addLinks_fold_count batch s) as Hcount
  end.
  simpl in Hnodes, Hcount.
  split; [rewrite Hcount | rewrite Hnodes, Hcount]; lia.
Qed.

(** ** What the state records *)

Abbreviation node_of_fetch := (node_of_fetch L browse resolveFavicon).
Abbreviation edge_of_fetch := (edge_of_fetch L normalize browse resolveFavicon k).
Abbreviation recorded := (recorded L normalize browse resolveFavicon startUrl k).

Lemma map_set_elem key v m kv :
  kv ∈ map_set key v m -> kv ∈ m \/ kv = (key, v).
Proof.
  induction m as [|[k' v'] m IH]; simpl.
  - rewrite list_elem_of_singleton. auto.
  - destruct (String.eqb_spec k' key) as [->|Hne].
    + rewrite !elem_of_cons. intuition.
    + rewrite !elem_of_cons. intuition.
Qed.

Lemma map_set_same key v m : (key, v) ∈ map_set key v m.
Proof.
  induction m as [|[k' v'] m IH]; simpl.
  - apply list_elem_of_singleton. done.
  - destruct (String.eqb_spec k' key) as [->|Hne]; rewrite elem_of_cons; auto.
Qed.

Lemma map_set_other key v m kv :
  kv ∈ m -> kv.1 <> key -> kv ∈ map_set key v m.
Proof.
  induction m as [|[k' v'] m IH]; simpl; intros Hin Hne.
  - by apply elem_of_nil in Hin.
  - apply elem_of_cons in Hin as [->|Hin].
    + simpl in Hne. destruct (String.eqb_spec k' key); [done|]. apply elem_of_cons; auto.
    + destruct (String.eqb_spec k' key); apply elem_of_cons; auto.
Qed.

Lemma map_has_true key m : map_has key m = true <-> exists v, (key, v) ∈ m.
Proof.
  unfold map_has. rewrite existsb_exists. split.
  - intros ([k' v] & Hin & Heq). apply String.eqb_eq in Heq. simpl in Heq. subst.
    exists v. by apply list_elem_of_In.
  - intros [v Hin]. exists (key, v). split; [by apply list_elem_of_In|].
    apply String.eqb_refl.
Qed.

Lemma link_eqb_eq a b : link_eqb a b = true <-> a = b.
Proof.
  unfold link_eqb. rewrite andb_true_iff, !String.eqb_eq.
  destruct a, b; simpl. split; [intros [-> ->]; done | intros [= -> ->]; done].
Qed.

Lemma set_add_elem e s x : x ∈ set_add e s <-> x ∈ s \/ x = e.
Proof.
  unfold set_add, has. destruct (existsb (link_eqb e) s) eqn:Hex.
  - apply existsb_exists in Hex as (y & Hin & Heq).
    apply link_eqb_eq in Heq. subst y. apply list_elem_of_In in Hin.
    split; [auto|]. intros [?| ->]; done.
  - rewrite elem_of_app, list_elem_of_singleton. done.
Qed.

Lemma fold_left_preserves {A B} (P : A -> Prop) (f : A -> B -> A) (l : list B) :
  (forall a b, b ∈ l -> P a -> P (f a b)) -> forall a, P a -> P (fold_left f l a).
Proof.
  induction l as [|b l IH]; intros Hf a Ha; simpl; [done|].
  apply IH.
  - intros a' b' Hb'. apply Hf. by apply elem_of_cons; right.
  - apply Hf; [apply elem_of_cons; by left | done].
Qed.

Lemma fetchEntry_fulfilled e r :
  fetchEntry e = fulfilled r <-> exists info, getPageInfo (url e) = fulfilled info /\ r = (e, info).
Proof.
  unfold fetchEntry. destruct (getPageInfo (url e)) as [info|].
  - split; [intros [= <-]; eauto | intros (i & [= <-] & ->); done].
  - split; [done | intros (i & ? & _); done].
Qed.

Lemma addNode_elem ns e kv :
  (forall kv', kv' ∈ ns -> exists e', node_of_fetch e' kv') ->
  kv ∈ addNode ns (fetchEntry e) <-> kv ∈ ns \/ node_of_fetch e kv.
Proof.
  intros Hgood. unfold addNode, fetchEntry, node_of_fetch.
  destruct (getPageInfo (url e)) as [info|] eqn:Hp.
  - split.
    + intros Hin. apply map_set_elem in Hin as [?| ->]; eauto.
    + intros [Hin|(info' & [= <-] & ->)]; [|apply map_set_same].
      destruct (decide (kv.1 = url e)) as [Heq|Hne]; [|by apply map_set_other].
      destruct (Hgood kv Hin) as (e' & info' & Hp' & ->). simpl in Heq.
      rewrite Heq in Hp' |- *. rewrite Hp in Hp'. injection Hp' as <-.
      apply map_set_same.
  - split; [auto|]. intros [?|(info' & ? & _)]; done.
Qed.

Lemma addNode_fold_elem b : forall ns kv,
  (forall kv', kv' ∈ ns -> exists e', node_of_fetch e' kv') ->
  kv ∈ fold_left addNode (fetchBatch b) ns <->
  kv ∈ ns \/ exists e, e ∈ b /\ node_of_fetch e kv.
Proof.
  induction b as [|e b IH]; intros ns kv Hgood; simpl.
  - split; [auto|]. intros [?|(e & Hin & _)]; [done|]. by apply elem_of_nil in Hin.
  - rewrite IH.
    + rewrite addNode_elem by done. setoid_rewrite elem_of_cons. naive_solver.
    + intros kv' Hin. apply addNode_elem in Hin as [Hin|Hin]; eauto.
Qed.

Lemma addLink_links src st href x :
  x ∈ links_set (addLink src st href) <->
  x ∈ links_set st \/ (normalize href = Some (target x) /\ source x = url src).
Proof.
  unfold addLink. destruct (normalize href) as [n|].
  - assert (x ∈ set_add {| source := url src; target := n |} (links_set st) <->
            x ∈ links_set st \/ (Some n = Some (target x) /\ source x = url src)) as Hadd.
    { rewrite set_add_elem. destruct x as [xs xt]; simpl. naive_solver. }
    by destruct (bool_decide _).
  - naive_solver.
Qed.

Lemma addLink_fold_links src ls : forall st x,
  x ∈ links_set (fold_left (addLink src) ls st) <->
  x ∈ links_set st \/
  exists href, href ∈ ls /\ normalize href = Some (target x) /\ source x = url src.
Proof.
  induction ls as [|l ls IH]; intros st x; simpl.
  - split; [auto|]. intros [?|(h & Hin & _)]; [done|]. by apply elem_of_nil in Hin.
  - rewrite IH, addLink_links. setoid_rewrite elem_of_cons. naive_solver.
Qed.

Lemma addLinks_links st e x :
  x ∈ links_set (addLinks st (fetchEntry e)) <-> x ∈ links_set st \/ edge_of_fetch e x.
Proof.
  unfold addLinks, fetchEntry, edge_of_fetch.
  destruct (getPageInfo (url e)) as [info|].
  - simpl. destruct (below (depth e) k) eqn:Hd.
    + rewrite addLink_fold_links. naive_solver.
    + split; [auto|]. intros [?|(i & h & _ & ? & _)]; done.
  - split; [auto|]. intros [?|(i & h & ? & _)]; done.
Qed.

Lemma addLinks_fold_links b : forall st x,
  x ∈ links_set (fold_left addLinks (fetchBatch b) st) <->
  x ∈ links_set st \/ exists e, e ∈ b /\ edge_of_fetch e x.
Proof.
  induction b as [|e b IH]; intros st x; simpl.
  - split; [auto|]. intros [?|(e & Hin & _)]; [done|]. by apply elem_of_nil in Hin.
  - rewrite IH, addLinks_links. setoid_rewrite elem_of_cons. naive_solver.
Qed.

Abbreviation frontier_logged := (frontier_logged startUrl k).

Lemma addLink_frontier src st href :
  below (depth src) k = true -> frontier_logged st -> frontier_logged (addLink src st href).
Proof.
  intros Hd [Hq He]. unfold addLink.
  destruct (normalize href) as [n|]; [|done].
  destruct (bool_decide _); [done|].
  split; simpl; intros q; rewrite !elem_of_app, !list_elem_of_singleton.
  - intros [?| ->]; auto.
  - intros [?| ->]; [auto|]. right. simpl.
    by replace (depth src + 1 - 1) with (depth src) by lia.
Qed.

Lemma addLinks_fold_frontier rs : forall st,
  frontier_logged st -> frontier_logged (fold_left addLinks rs st).
Proof.
  apply fold_left_preserves. intros st r _ Hst.
  destruct r as [[e info]|]; [|done]. simpl.
  destruct (below (depth e) k) eqn:Hd; [|done].
  assert (frontier_logged (fold_left (addLink e) (links info) st)) as [Hq He]; [|done].
  apply fold_left_preserves; [|done].
  intros st' href _. by apply addLink_frontier.
Qed.

(** What the inner loop does to the batch, the queue and the cache. *)
Lemma fillBatch_facts q c b' q' c' :
  fillBatch [] q c = (b', q', c') ->
  c' = list_to_set (url <$> b') ∪ c /\
  (forall e, e ∈ b' -> exceeds (depth e) k = false /\ (url e = startUrl \/ url e ∉ c)) /\
  (forall x, x ∈ q' -> x ∈ q) /\
  (length b' <= CONCURRENT_FETCHES L)%nat.
Proof.
  intros Hf.
  apply (fillBatch_rule
           (fun b1 q1 c1 =>
              c1 = list_to_set (url <$> b1) ∪ c /\
              (forall e, e ∈ b1 -> exceeds (depth e) k = false /\ (url e = startUrl \/ url e ∉ c)) /\
              (forall x, x ∈ q1 -> x ∈ q) /\
              (length b1 <= CONCURRENT_FETCHES L)%nat))
    with (q := q) (b := []) (c := c); [| | |exact Hf].
  - intros b next q1 c1 (Hc & Hb & Hq & Hl) _ _.
    split_and!; try done. intros x Hx. apply Hq. apply elem_of_cons; auto.
  - intros b next q1 c1 n (Hc & Hb & Hq & Hl) Hlt Hd Hn Hfresh.
    split_and!.
    + subst c1. rewrite fmap_app, list_to_set_app_L. simpl. set_solver.
    + intros e [H|H]%elem_of_app; [by apply Hb|].
      apply list_elem_of_singleton in H. subst e. simpl. split; [done|].
      destruct Hfresh as [?|Hfresh]; [auto|]. right. subst c1. set_solver.
    + intros x Hx. apply Hq. apply elem_of_cons; auto.
    + rewrite length_app. simpl. lia.
  - split_and!.
    + simpl. set_solver.
    + intros e H. by apply elem_of_nil in H.
    + done.
    + simpl. lia.
Qed.

Lemma recorded_iteration cache0 st :
  recorded cache0 st -> recorded cache0 (iteration st).1.
Proof.
  intros (Hn & Hl & Hc & Hd & Hq & He). unfold iteration.
  destruct (fillBatch [] (queue st) (urlCache st)) as [[b q'] c'] eqn:Hf.
  apply fillBatch_facts in Hf as (Hc' & Hb & Hq' & _).
  destruct b as [|e0 b0]; cbn [fst].
  { split_and!; simpl; auto. subst c'. rewrite Hc. simpl. set_solver. }
  remember (e0 :: b0) as b eqn:Hbeq. clear Hbeq e0 b0.
  match goal with |- recorded _ (fold_left _ _ ?s) =>
    destruct (addLinks_fold_frame (fetchBatch b) s) as (Hnodes & Hcache & Hdisp);
    pose proof (addLinks_fold_links b s) as Hlinks;
    destruct (addLinks_fold_frontier (fetchBatch b) s) as [Hq1 He1]
  end.
  { split; simpl; auto. }
  simpl in Hnodes, Hcache, Hdisp, Hlinks.
  split; [|split; [|split; [|split]]]; [| | | |done].
  - intros kv. rewrite Hnodes, Hdisp, addNode_fold_elem.
    + rewrite Hn. setoid_rewrite elem_of_app. naive_solver.
    + intros kv' Hin. apply Hn in Hin as (e & _ & ?). eauto.
  - intros x. rewrite Hlinks, Hdisp, Hl. setoid_rewrite elem_of_app. naive_solver.
  - rewrite Hcache, Hdisp, Hc', Hc, fmap_app, list_to_set_app_L. set_solver.
  - intros e. rewrite Hdisp, elem_of_app. intros [Hin|Hin]; [auto|].
    destruct (Hb e Hin) as [Hk Hfresh]. split; [done|].
    destruct Hfresh as [?|Hfresh]; [auto|]. right. rewrite Hc in Hfresh. set_solver.
Qed.

Lemma recorded_initial cache0 : recorded cache0 (initial startUrl cache0).
Proof.
  split_and!; simpl.
  - intros kv. split; [intros H | intros (e & H & _)]; by apply elem_of_nil in H.
  - intros x. split; [intros H | intros (e & H & _)]; by apply elem_of_nil in H.
  - set_solver.
  - intros e H. by apply elem_of_nil in H.
  - done.
  - intros q H. apply list_elem_of_singleton in H. auto.
Qed.

(** ** Breadth-first order *)

Lemma sorted_depth_ext l1 : forall l2,
  depth <$> l1 = depth <$> l2 ->
  StronglySorted depth_le l1 -> StronglySorted depth_le l2.
Proof.
  induction l1 as [|a l1 IH]; intros [|b l2] Heq Hs; simplify_eq/=; [constructor|].
  apply StronglySorted_cons in Hs as [Hall Hs].
  apply StronglySorted_cons. split; [|by apply IH].
  apply Forall_forall. intros y Hy.
  assert (depth y ∈ depth <$> l1) as Hin.
  { rewrite H0. apply list_elem_of_fmap. eauto. }
  apply list_elem_of_fmap in Hin as (y' & Hd & Hy').
  rewrite Forall_forall in Hall. specialize (Hall y' Hy').
  unfold depth_le in *. lia.
Qed.

Lemma within_one_ext l1 l2 l1' l2' :
  depth <$> l1 = depth <$> l1' -> depth <$> l2 = depth <$> l2' ->
  within_one l1 l2 -> within_one l1' l2'.
Proof.
  intros H1 H2 Hw x y Hx Hy.
  assert (depth x ∈ depth <$> l1) as Hx1.
  { rewrite H1. apply list_elem_of_fmap. eauto. }
  assert (depth y ∈ depth <$> l2) as Hy1.
  { rewrite H2. apply list_elem_of_fmap. eauto. }
  apply list_elem_of_fmap in Hx1 as (x' & -> & Hx').
  apply list_elem_of_fmap in Hy1 as (y' & -> & Hy'). by apply Hw.
Qed.

Lemma fillBatch_bfs D q b' q' c c' :
  StronglySorted depth_le (D ++ q) -> within_one q q ->
  fillBatch [] q c = (b', q', c') ->
  StronglySorted depth_le ((D ++ b') ++ q') /\ within_one (b' ++ q') (b' ++ q').
Proof.
  intros Hs Hw Hf.
  eapply (fillBatch_rule
            (fun b1 q1 _ =>
               StronglySorted depth_le ((D ++ b1) ++ q1) /\
               within_one (b1 ++ q1) (b1 ++ q1))); [| | |exact Hf].
  - intros b next q1 _ [Hs1 Hw1] _ _. split.
    + revert Hs1. rewrite !StronglySorted_app, StronglySorted_cons.
      setoid_rewrite elem_of_app. setoid_rewrite elem_of_cons. naive_solver.
    + intros x y. specialize (Hw1 x y). revert Hw1.
      rewrite !elem_of_app, !elem_of_cons. naive_solver.
  - intros b next q1 _ n [Hs1 Hw1] _ _ _ _.
    assert (depth <$> (b ++ next :: q1)
            = depth <$> ((b ++ [{| url := n; depth := depth next |}]) ++ q1)) as Heq.
    { rewrite <- app_assoc, !fmap_app. done. }
    split.
    + eapply sorted_depth_ext; [|exact Hs1].
      rewrite <- !app_assoc, !(fmap_app _ D). f_equal. by rewrite Heq, <- app_assoc.
    + by eapply within_one_ext; [| |exact Hw1].
  - split; [by rewrite app_nil_r|done].
Qed.

Lemma addLink_bfs b rest st href :
  bfs_pass (b :: rest) st -> bfs_pass (b :: rest) (addLink b st href).
Proof.
  intros Hpass. unfold addLink.
  destruct (normalize href) as [n|]; [|done].
  destruct (bool_decide _); [done|].
  destruct Hpass as ([Hs Hw] & Hrest & Hwq & Hwd & Hsub).
  set (c := {| url := n; depth := depth b + 1 |}).
  assert (b ∈ dispatched st) as Hb by (apply Hsub, elem_of_cons; auto).
  assert (forall x, x ∈ queue st -> depth b <= depth x) as Hbq.
  { intros x Hx. by apply (StronglySorted_app_1_elem_of _ _ _ _ _ Hs). }
  assert (forall r, r ∈ b :: rest -> depth b <= depth r) as Hbr.
  { intros r [->|Hr]%elem_of_cons; [lia|].
    apply StronglySorted_cons in Hrest as [Hall _].
    rewrite Forall_forall in Hall. by apply Hall. }
  unfold bfs_pass, bfs_ordered. simpl. split_and!; try done.
  - rewrite app_assoc. apply StronglySorted_app. split_and!; [|done|repeat constructor].
    intros x1 x2 Hx1 ->%list_elem_of_singleton. unfold depth_le. simpl.
    apply elem_of_app in Hx1 as [Hx1|Hx1].
    + apply (Hwd b x1); [apply elem_of_cons; auto|done].
    + apply (Hwq b x1); [apply elem_of_cons; auto|done].
  - intros x y [Hx| ->%list_elem_of_singleton]%elem_of_app
               [Hy| ->%list_elem_of_singleton]%elem_of_app; simpl.
    + by apply Hw.
    + specialize (Hbq x Hx). lia.
    + assert (depth y <= depth b + 1); [|lia].
      apply (Hwq b y); [apply elem_of_cons; auto|done].
    + lia.
  - intros r y Hr [Hy| ->%list_elem_of_singleton]%elem_of_app.
    + by apply Hwq.
    + simpl. specialize (Hbr r Hr). lia.
Qed.

Lemma addLinks_bfs b rest st :
  bfs_pass (b :: rest) st -> bfs_pass rest (addLinks st (fetchEntry b)).
Proof.
  intros Hpass.
  assert (forall st', bfs_pass (b :: rest) st' -> bfs_pass rest st') as Hweak.
  { intros st' (Ho & Hrest & Hwq & Hwd & Hsub).
    apply StronglySorted_cons in Hrest as [_ Hrest].
    split_and!; try done.
    - intros x y Hx. apply Hwq, elem_of_cons; auto.
    - intros x y Hx. apply Hwd, elem_of_cons; auto.
    - intros r Hr. apply Hsub, elem_of_cons; auto. }
  unfold addLinks, fetchEntry.
  destruct (getPageInfo (url b)) as [info|]; [|by apply Hweak].
  assert (bfs_pass (b :: rest)
            (if below (depth b) k then fold_left (addLink b) (links info) st else st)) as Hst.
  { destruct (below (depth b) k); [|done].
    apply fold_left_preserves; [|done]. intros st' href _. apply addLink_bfs. }
  apply Hweak in Hst. exact Hst.
Qed.

Lemma addLinks_fold_bfs rest : forall st,
  bfs_pass rest st -> bfs_ordered (fold_left addLinks (fetchBatch rest) st).
Proof.
  induction rest as [|b rest IH]; intros st Hpass; simpl.
  - by destruct Hpass.
  - by apply IH, addLinks_bfs.
Qed.

Lemma bfs_ordered_iteration st :
  bfs_ordered st -> bfs_ordered (iteration st).1.
Proof.
  intros [Hs Hw]. unfold iteration.
  destruct (fillBatch [] (queue st) (urlCache st)) as [[b q'] c'] eqn:Hf.
  apply (fillBatch_bfs (dispatched st)) in Hf as [Hs' Hw']; [|done..].
  destruct b as [|e0 b0]; cbn [fst].
  { split; simpl; [by rewrite app_nil_r in Hs'|done]. }
  remember (e0 :: b0) as b eqn:Hbeq. clear Hbeq e0 b0.
  apply addLinks_fold_bfs.
  pose proof Hs' as Hs2.
  apply StronglySorted_app in Hs2 as (_ & HDb & _).
  apply StronglySorted_app in HDb as (HDle & _ & Hb).
  split_and!; simpl.
  - split; simpl; [done|]. intros x y Hx Hy. apply Hw'; apply elem_of_app; auto.
  - done.
  - intros x y Hx Hy. apply Hw'; apply elem_of_app; auto.
  - intros x y Hx [Hy|Hy]%elem_of_app.
    + specialize (HDle y x Hy Hx). unfold depth_le in HDle. lia.
    + apply Hw'; apply elem_of_app; auto.
  - intros r Hr. apply elem_of_app; auto.
Qed.

Lemma bfs_ordered_initial cache : bfs_ordered (initial startUrl cache).
Proof.
  split; simpl.
  - repeat constructor.
  - intros x y ->%list_elem_of_singleton ->%list_elem_of_singleton. lia.
Qed.

(** ** No url is fetched twice *)

Section Once.

(** [new URL(s).toString()] is a normal form: serializing a parsed url
    and parsing it again gives the same text. *)
Hypothesis normalize_idem : forall s t, normalize s = Some t -> normalize t = Some t.
Hypothesis seed_normal : normalize startUrl = Some startUrl.

Abbreviation fetched_once := (fetched_once normalize startUrl).

Lemma fillBatch_once D q c b' q' c' :
  fetched_once D q c ->
  fillBatch [] q c = (b', q', c') ->
  fetched_once (D ++ b') q' c'.
Proof.
  intros Hinv Hf.
  eapply (fillBatch_rule (fun b1 q1 c1 => fetched_once (D ++ b1) q1 c1));
    [| | |exact Hf].
  - intros b next q1 c1 (Hnd & Hin & Hnorm & Hfirst & Hlater) _ _.
    split_and!; try done.
    + intros x Hx. apply Hnorm, elem_of_cons; auto.
    + intros Hnil. destruct (Hfirst Hnil) as [[= _ ->]|[=]]. auto.
    + intros Hne. destruct (Hlater Hne) as [Hs Hq]. split; [done|].
      intros x Hx. apply Hq, elem_of_cons; auto.
  - intros b next q1 c1 n (Hnd & Hin & Hnorm & Hfirst & Hlater) _ _ Hn Hfresh.
    assert (n = url next) as ->.
    { rewrite Hnorm in Hn by (apply elem_of_cons; auto). congruence. }
    assert (url next ∉ url <$> (D ++ b)) as Hnew.
    { intros (e & Hurl & He)%list_elem_of_fmap.
      assert (D ++ b <> []) as Hne by (intros Heq; rewrite Heq in He; by apply elem_of_nil in He).
      destruct (Hlater Hne) as [Hs Hq].
      destruct Hfresh as [Heq|Hfresh].
      - apply (Hq next); [apply elem_of_cons; auto|done].
      - apply Hfresh. rewrite Hurl. by apply Hin. }
    split_and!.
    + rewrite app_assoc, fmap_app. apply NoDup_app. split_and!; [done| |].
      * intros u Hu ->%list_elem_of_singleton. done.
      * simpl. apply NoDup_singleton.
    + intros e. rewrite app_assoc, elem_of_app, list_elem_of_singleton.
      intros [He| ->]; [|set_solver]. specialize (Hin e He). set_solver.
    + intros x Hx. apply Hnorm, elem_of_cons; auto.
    + rewrite app_assoc. intros Hnil. by apply app_eq_nil in Hnil as [_ [=]].
    + intros _. destruct (decide (D ++ b = [])) as [Hnil|Hne].
      * destruct (Hfirst Hnil) as [[= -> ->]|[=]]. simpl. split; [set_solver|].
        intros x Hx. by apply elem_of_nil in Hx.
      * destruct (Hlater Hne) as [Hs Hq]. split; [set_solver|].
        intros x Hx. apply Hq, elem_of_cons; auto.
  - by rewrite app_nil_r.
Qed.

Abbreviation once := (once normalize startUrl).

Lemma addLink_once src st href :
  dispatched st <> [] -> once st -> once (addLink src st href).
Proof.
  intros Hne (Hnd & Hin & Hnorm & Hfirst & Hlater). unfold addLink.
  destruct (normalize href) as [n|] eqn:Hn; [|done].
  destruct (bool_decide (n ∈ urlCache st)) eqn:Hc; [done|].
  apply bool_decide_eq_false in Hc.
  destruct (Hlater Hne) as [Hs Hq].
  unfold once. simpl. split_and!; try done.
  - intros x [Hx| ->%list_elem_of_singleton]%elem_of_app; [auto|].
    simpl. by eapply normalize_idem.
  - intros _. split; [done|].
    intros x [Hx| ->%list_elem_of_singleton]%elem_of_app; [auto|].
    simpl. intros ->. done.
Qed.

Lemma addLinks_fold_once rs : forall st,
  dispatched st <> [] -> once st -> once (fold_left addLinks rs st).
Proof.
  intros st Hne Hst.
  assert (dispatched (fold_left addLinks rs st) <> [] /\
          once (fold_left addLinks rs st)) as [_ H]; [|done].
  apply (fold_left_preserves (fun s => dispatched s <> [] /\ once s)); [|done].
  intros s r _ [Hs1 Hs2].
  destruct r as [[e info]|]; [|done]. simpl.
  assert (dispatched (if below (depth e) k then fold_left (addLink e) (links info) s else s) <> [] /\
          once (if below (depth e) k then fold_left (addLink e) (links info) s else s))
    as [H1 H2]; [|done].
  destruct (below (depth e) k); [|done].
  apply (fold_left_preserves (fun s => dispatched s <> [] /\ once s)); [|done].
  intros s' href _ [Hs1' Hs2']. split; [|by apply addLink_once].
  by destruct (addLink_frame e s' href) as (_ & _ & _ & ->).
Qed.

Lemma once_iteration st : once st -> once (iteration st).1.
Proof.
  intros Hst. unfold iteration.
  destruct (fillBatch [] (queue st) (urlCache st)) as [[b q'] c'] eqn:Hf.
  apply (fillBatch_once (dispatched st)) in Hf; [|done].
  destruct b as [|e0 b0]; cbn [fst].
  { unfold once. simpl. by rewrite app_nil_r in Hf. }
  apply addLinks_fold_once; [|done].
  simpl. intros Hnil. by apply app_eq_nil in Hnil as [_ [=]].
Qed.

Lemma once_initial cache : once (initial startUrl cache).
Proof.
  unfold once, fetched_once. simpl. split_and!.
  - apply NoDup_nil_2.
  - intros e H. by apply elem_of_nil in H.
  - intros x ->%list_elem_of_singleton. done.
  - auto.
  - done.
Qed.

End Once.

(** ** Termination *)

Abbreviation dispatchable := (dispatchable normalize startUrl k).

Lemma fillBatch_pops q b c b' q' c' :
  fillBatch b q c = (b', q', c') ->
  (length b' + length q' <= length b + length q)%nat /\ exists added, b' = b ++ added.
Proof.
  intros Hf.
  eapply (fillBatch_rule
            (fun b1 q1 _ =>
               (length b1 + length q1 <= length b + length q)%nat /\
               exists added, b1 = b ++ added)); [| | |exact Hf].
  - intros b1 next q1 _ [Hlen Hpre] _ _. simpl in Hlen. split; [lia|done].
  - intros b1 next q1 _ n [Hlen [added ->]] _ _ _ _. simpl in Hlen.
    rewrite !length_app in *. simpl. split; [lia|].
    eexists. by rewrite <- app_assoc.
  - split; [lia|]. exists []. by rewrite app_nil_r.
Qed.

Lemma addLinks_fold_rejected b : forall st,
  length (filter (settles L browse resolveFavicon) b) = 0%nat ->
  fold_left addLinks (fetchBatch b) st = st.
Proof.
  induction b as [|e b IH]; intros st Hnone; simpl; [done|].
  destruct (decide (settles L browse resolveFavicon e)) as [Hs|Hs].
  - rewrite filter_cons_True in Hnone by done. done.
  - rewrite filter_cons_False in Hnone by done.
    unfold settles in Hs. unfold fetchEntry.
    destruct (getPageInfo (url e)); [by destruct Hs|]. simpl. by apply IH.
Qed.

(** An iteration that goes on has counted a result or shortened the queue. *)
Lemma iteration_progress st :
  (iteration st).2 = true ->
  (processedCount st < processedCount (iteration st).1)%nat \/
  (processedCount (iteration st).1 = processedCount st /\
   (length (queue (iteration st).1) < length (queue st))%nat).
Proof.
  unfold iteration.
  destruct (fillBatch [] (queue st) (urlCache st)) as [[b q'] c'] eqn:Hf.
  apply fillBatch_pops in Hf as [Hlen _].
  destruct b as [|e0 b0]; cbn [fst snd]; [done|]. intros _.
  remember (e0 :: b0) as b eqn:Hbeq.
  assert (0 < length b)%nat as Hpos by (subst b; simpl; lia). clear Hbeq.
  match goal with |- context [fold_left _ _ ?s] =>
    pose proof (addLinks_fold_count b s) as Hcount;
    pose proof (addLinks_fold_rejected b s) as Hrej
  end.
  simpl in Hcount.
  destruct (length (filter (settles L browse resolveFavicon) b)) as [|m].
  - right. rewrite Hrej by done. simpl in *. lia.
  - left. lia.
Qed.

Lemma crawlLoop_terminates :
  forall st i, exists fuel o, crawlLoop fuel i st = Some o.
Proof.
  intros st.
  remember (TOTAL_NODES L - processedCount st)%nat as a eqn:Ha.
  revert st Ha. induction a as [a IHa] using lt_wf_ind. intros st Ha.
  remember (length (queue st)) as n eqn:Hn.
  revert st Ha Hn. induction n as [n IHn] using lt_wf_ind. intros st Ha Hn i.
  destruct (loopCondition L st) eqn:Hcond.
  2:{ exists 1%nat, (Completed st). by rewrite crawlLoop_S, Hcond. }
  destruct (faulty i) eqn:Hfault.
  { exists 1%nat, (Aborted st). by rewrite crawlLoop_S, Hcond, Hfault. }
  destruct (iteration st).2 eqn:Hgo.
  2:{ exists 1%nat, (Completed (iteration st).1).
      by rewrite crawlLoop_S, Hcond, Hfault, Hgo. }
  assert (exists fuel o, crawlLoop fuel (S i) (iteration st).1 = Some o)
    as (fuel & o & Hrun).
  { apply andb_true_iff in Hcond as [_ Hlt]. apply Nat.ltb_lt in Hlt.
    destruct (iteration_progress st Hgo) as [Hmore|[Hsame Hless]].
    - eapply (IHa (TOTAL_NODES L - processedCount (iteration st).1)%nat); [lia|done].
    - eapply (IHn (length (queue (iteration st).1))); [lia| |done].
      rewrite Hsame. done. }
  exists (S fuel), o. by rewrite crawlLoop_S, Hcond, Hfault, Hgo.
Qed.

Lemma loopCondition_false st :
  loopCondition L st = false <->
  queue st = [] \/ (TOTAL_NODES L <= processedCount st)%nat.
Proof.
  unfold loopCondition. rewrite andb_false_iff, negb_false_iff.
  rewrite Nat.eqb_eq, Nat.ltb_ge, length_zero_iff_nil. done.
Qed.

Lemma fillBatch_empty q : forall c,
  (0 < CONCURRENT_FETCHES L)%nat ->
  (fillBatch [] q c).1.1 = [] <-> forall e, e ∈ q -> ~ dispatchable c e.
Proof.
  induction q as [|next q IH]; intros c Hpos; simpl.
  - destruct (CONCURRENT_FETCHES L <=? 0)%nat; simpl; split; try done;
      intros _ e He; by apply elem_of_nil in He.
  - destruct (Nat.leb_spec (CONCURRENT_FETCHES L) 0) as [?|_]; [lia|].
    assert ((forall e, e ∈ next :: q -> ~ dispatchable c e) <->
            ~ dispatchable c next /\ forall e, e ∈ q -> ~ dispatchable c e) as ->.
    { setoid_rewrite elem_of_cons. naive_solver. }
    unfold dispatchable at 1.
    destruct (exceeds (depth next) k) eqn:Hd.
    { rewrite IH by done. split; [|naive_solver]. intros H. split; [|done].
      intros [? _]. congruence. }
    destruct (normalize (url next)) as [n|] eqn:Hnorm.
    2:{ rewrite IH by done. naive_solver. }
    destruct (String.eqb_spec n startUrl) as [Heq|Hne]; simpl.
    { destruct (fillBatch _ q _) as [[b' q'] c'] eqn:Hf.
      apply fillBatch_pops in Hf as [_ [added ->]]. simpl.
      split; [done|]. intros [Hno _]. destruct Hno. split; [done|]. eauto. }
    destruct (decide (n ∈ c)) as [Hin|Hout].
    + rewrite bool_decide_eq_true_2 by done. simpl.
      rewrite IH by done. split; [|naive_solver]. intros H. split; [|done].
      intros (_ & n' & [= <-] & [?|?]); done.
    + rewrite bool_decide_eq_false_2 by done. simpl.
      destruct (fillBatch _ q _) as [[b' q'] c'] eqn:Hf.
      apply fillBatch_pops in Hf as [_ [added ->]]. simpl.
      split; [done|]. intros [Hno _]. destruct Hno. split; [done|]. eauto.
Qed.

(** ** What [processedCount] counts, and how the loop is left *)

Lemma counted_iteration st :
  counted L browse resolveFavicon st -> counted L browse resolveFavicon (iteration st).1.
Proof.
  unfold counted, iteration. intros Hc.
  destruct (fillBatch [] (queue st) (urlCache st)) as [[b q'] c'] eqn:Hf.
  destruct b as [|e0 b0]; cbn [fst]; [done|].
  remember (e0 :: b0) as b eqn:Hbeq. clear Hbeq.
  match goal with |- context [fold_left _ _ ?s] =>
    destruct (addLinks_fold_frame (fetchBatch b) s) as (_ & _ & ->);
    rewrite (addLinks_fold_count b s)
  end.
  simpl. rewrite filter_app, length_app. lia.
Qed.

Lemma crawlLoop_fuel_mono fuel : forall fuel' i st o,
  (fuel <= fuel')%nat -> crawlLoop fuel i st = Some o -> crawlLoop fuel' i st = Some o.
Proof.
  induction fuel as [|fuel IH]; intros fuel' i st o Hle Hrun; [done|].
  destruct fuel' as [|fuel']; [lia|].
  rewrite crawlLoop_S in *.
  destruct (loopCondition L st); [|done].
  destruct (faulty i); [done|].
  destruct (iteration st).2; [|done].
  apply IH; [lia|done].
Qed.

Lemma crawlLoop_left_normally fuel : forall i st o,
  (0 < CONCURRENT_FETCHES L)%nat ->
  (forall j, faulty j = false) ->
  crawlLoop fuel i st = Some o ->
  left_normally L o.
Proof.
  induction fuel as [|fuel IH]; intros i st o Hpos Hnone Hrun; [done|].
  rewrite crawlLoop_S in Hrun.
  destruct (loopCondition L st) eqn:Hcond.
  2:{ simplify_eq. split; [done|]. by apply loopCondition_false. }
  rewrite Hnone in Hrun.
  destruct (iteration st).2 eqn:Hgo; [by eapply IH|].
  simplify_eq. split; [done|]. left. simpl.
  unfold iteration in *.
  destruct (fillBatch [] (queue st) (urlCache st)) as [[b q'] c'] eqn:Hf.
  destruct b as [|e0 b0]; [|done]. simpl.
  apply fillBatch_exit in Hf as [Hfull| ->]; [|done].
  simpl in Hfull. lia.
Qed.

End Rules.

(** * The claims *)

Section Claims.

Variable L : Limits.
Variable normalize : string -> option string.
Variable browse : string -> browser_run.
Variable resolveFavicon : string -> string -> option string.

Abbreviation run := (run L normalize browse resolveFavicon).
Abbreviation crawlKHops := (crawlKHops L normalize browse resolveFavicon).
Abbreviation api_crawl := (api_crawl L normalize browse resolveFavicon).
Abbreviation getPageInfo := (getPageInfo L browse resolveFavicon).

Lemma run_within_budget faulty startUrl k fuel cache o :
  run faulty startUrl k fuel cache = Some o -> within_budget L (final o).
Proof.
  apply crawlLoop_rule.
  - apply within_budget_iteration.
  - split; simpl; lia.
Qed.

Lemma run_recorded faulty startUrl k fuel cache o :
  run faulty startUrl k fuel cache = Some o ->
  recorded L normalize browse resolveFavicon startUrl k cache (final o).
Proof.
  apply crawlLoop_rule.
  - intros st Hst _. by apply recorded_iteration.
  - apply recorded_initial.
Qed.

Lemma run_bfs_ordered faulty startUrl k fuel cache o :
  run faulty startUrl k fuel cache = Some o -> bfs_ordered (final o).
Proof.
  apply crawlLoop_rule.
  - intros st Hst _. by eapply bfs_ordered_iteration.
  - apply bfs_ordered_initial.
Qed.

Lemma run_once faulty startUrl k fuel cache o :
  (forall s t, normalize s = Some t -> normalize t = Some t) ->
  normalize startUrl = Some startUrl ->
  run faulty startUrl k fuel cache = Some o -> once normalize startUrl (final o).
Proof.
  intros Hidem Hseed. apply crawlLoop_rule.
  - intros st Hst _. by eapply once_iteration.
  - by apply once_initial.
Qed.

(** C10. The number of processed results, and with it the number of nodes
    of the returned graph, never exceeds TOTAL_NODES + CONCURRENT_FETCHES - 1
    (54 with the constants of the program): the budget is tested before a
    batch is filled, not between the fetches of a batch. *)
Theorem processed_at_most_budget_plus_batch faulty startUrl k fuel cache o :
  run faulty startUrl k fuel cache = Some o ->
  (processedCount (final o) <= TOTAL_NODES L + CONCURRENT_FETCHES L - 1)%nat /\
  (length (graph_nodes (buildGraph o)) <= processedCount (final o))%nat.
Proof.
  intros Hrun. apply run_within_budget in Hrun as [Hp Hn]. split; [done|].
  destruct o as [st|st]; simpl in *; [|lia]. by rewrite length_map.
Qed.

Lemma run_counted faulty startUrl k fuel cache o :
  run faulty startUrl k fuel cache = Some o -> counted L browse resolveFavicon (final o).
Proof.
  apply crawlLoop_rule.
  - intros st Hst _. by apply counted_iteration.
  - done.
Qed.

Lemma session_inv u reset cache startUrl cache' :
  session normalize u reset cache = Some (startUrl, cache') ->
  normalize u = Some startUrl /\
  cache' = (if reset then ∅ else cache) ∖ {[startUrl]}.
Proof.
  unfold session. destruct (normalize u); [|done]. by intros [= -> ->].
Qed.

Lemma sorted_lookup (l : list entry) :
  StronglySorted depth_le l ->
  forall i j ei ej, (i < j)%nat -> l !! i = Some ei -> l !! j = Some ej ->
                    depth ei <= depth ej.
Proof.
  induction 1 as [|a l Hs IH Hall]; intros i j ei ej Hlt Hi Hj; [done|].
  destruct j as [|j]; [lia|]. simpl in Hj.
  destruct i as [|i]; simpl in Hi.
  - simplify_eq. rewrite Forall_forall in Hall.
    apply Hall. by eapply list_elem_of_lookup_2.
  - eapply (IH i j); [lia|done..].
Qed.

Lemma once_lookup st :
  NoDup (url <$> dispatched st) ->
  forall i j ei ej, dispatched st !! i = Some ei -> dispatched st !! j = Some ej ->
                    url ei = url ej -> i = j.
Proof.
  intros Hnd i j ei ej Hi Hj Heq.
  eapply (NoDup_lookup _ i j (url ei) Hnd).
  - by rewrite list_lookup_fmap, Hi.
  - by rewrite list_lookup_fmap, Hj, Heq.
Qed.

(** C2, as the code has it. When the catch of crawlKHops runs, the crawl
    ends there and the request is answered normally, with a graph that has
    no node and no link: what was accumulated is dropped. The catch runs
    only on a fault of the runtime. *)
Theorem scheduler_fault_returns_empty_graph
        faulty u reset startUrl k fuel cache cache' st :
  session normalize u reset cache = Some (startUrl, cache') ->
  run faulty startUrl k fuel cache' = Some (Aborted st) ->
  api_crawl faulty fuel u k reset cache
  = Some (Json {| graph_nodes := []; graph_links := [] |}, urlCache st) /\
  exists i, faulty i = true.
Proof.
  intros Hs Hrun. split.
  - unfold api_crawl, crawlKHops. by rewrite Hs, Hrun.
  - unfold run in Hrun.
    generalize dependent (initial startUrl cache'). generalize 0%nat.
    induction fuel as [|fuel IH]; intros i st0 Hrun; [done|].
    rewrite crawlLoop_S in Hrun.
    destruct (loopCondition L st0); [|done].
    destruct (faulty i) eqn:Hf; [eauto|].
    destruct (iteration _ _ _ _ _ _ st0).2; [eauto|done].
Qed.

(** C3. Within one crawl session no url is fetched twice, whatever
    duplicates the frontier or a batch holds, the seed included: two
    fetches of the same url are the same fetch. Normalization is taken to
    be a normal form, as the URL standard has it. *)
Theorem no_url_fetched_twice faulty u reset startUrl k fuel cache cache' o :
  (forall s t, normalize s = Some t -> normalize t = Some t) ->
  session normalize u reset cache = Some (startUrl, cache') ->
  run faulty startUrl k fuel cache' = Some o ->
  forall i j ei ej,
    dispatched (final o) !! i = Some ei -> dispatched (final o) !! j = Some ej ->
    url ei = url ej -> i = j.
Proof.
  intros Hidem [Hu _]%session_inv Hrun.
  apply once_lookup.
  eapply run_once in Hrun as (Hnd & _); eauto.
Qed.

(** C4. No recorded edge has a source that was fetched at depth k or
    deeper, and for every page whose fetch was fulfilled at a depth below k
    an edge to each of its links that normalizes is recorded, whatever the
    state of the target. (Below k is the test [depth < k] of the code, for
    whatever number k is.) *)
Theorem edges_recorded_below_depth_k faulty u reset startUrl k fuel cache cache' o :
  (forall s t, normalize s = Some t -> normalize t = Some t) ->
  session normalize u reset cache = Some (startUrl, cache') ->
  run faulty startUrl k fuel cache' = Some o ->
  (forall x e, x ∈ links_set (final o) -> e ∈ dispatched (final o) ->
               url e = source x -> below (depth e) k = true) /\
  (forall e info href t,
      e ∈ dispatched (final o) -> getPageInfo (url e) = fulfilled info ->
      below (depth e) k = true -> href ∈ links info -> normalize href = Some t ->
      {| source := url e; target := t |} ∈ links_set (final o)).
Proof.
  intros Hidem [Hu _]%session_inv Hrun.
  pose proof (run_recorded _ _ _ _ _ _ Hrun) as (_ & Hlinks & _).
  eapply run_once in Hrun as (Hnd & _); eauto.
  split.
  - intros x e Hx He Heq.
    apply Hlinks in Hx as (e' & He' & info & href & _ & Hd & _ & _ & Hsrc).
    apply list_elem_of_lookup in He as [i Hi].
    apply list_elem_of_lookup in He' as [j Hj].
    assert (i = j) as -> by (eapply once_lookup; eauto; congruence).
    by simplify_eq.
  - intros e info href t He Hp Hd Hin Hn. apply Hlinks.
    exists e. split; [done|]. exists info, href. by simpl.
Qed.

(** C5. In the graph a crawl returns, the source and the target of every
    link are ids of nodes of that graph; the links returned are the
    recorded links whose two ends are nodes, the others are dropped. *)
Theorem no_dangling_edges faulty startUrl k fuel cache o :
  run faulty startUrl k fuel cache = Some o ->
  (forall l, l ∈ graph_links (buildGraph o) ->
             (exists n, n ∈ graph_nodes (buildGraph o) /\ id n = source l) /\
             (exists n, n ∈ graph_nodes (buildGraph o) /\ id n = target l) /\
             l ∈ links_set (final o)) /\
  (forall st l, o = Completed st -> l ∈ links_set st ->
                (exists n, n ∈ graph_nodes (buildGraph o) /\ id n = source l) ->
                (exists n, n ∈ graph_nodes (buildGraph o) /\ id n = target l) ->
                l ∈ graph_links (buildGraph o)).
Proof.
  intros Hrun.
  pose proof (run_recorded _ _ _ _ _ _ Hrun) as (Hnodes & _).
  assert (forall key, map_has key (nodes (final o)) = true <->
                      exists n, n ∈ map snd (nodes (final o)) /\ id n = key) as Hhas.
  { intros key. rewrite map_has_true. split.
    - intros [v Hin]. exists v. split.
      + apply list_elem_of_In, in_map_iff. exists (key, v).
        split; [done|]. by apply list_elem_of_In.
      + apply Hnodes in Hin as (e & _ & info & _ & [= -> ->]). done.
    - intros (n & Hin & Hid).
      apply list_elem_of_In, in_map_iff in Hin as ([key' v] & Hsnd & Hin).
      simpl in Hsnd. subst v. apply list_elem_of_In in Hin.
      pose proof Hin as Hin'.
      apply Hnodes in Hin' as (e & _ & info & _ & [= -> ->]).
      simpl in Hid. subst key. eauto. }
  destruct o as [st|st]; simpl in *.
  - split.
    + intros l [[Hs Ht] Hl]%list_elem_of_filter.
      split_and!; [by apply Hhas | by apply Hhas | done].
    + intros st' l [= <-] Hl Hs Ht. apply list_elem_of_filter.
      split; [|done]. split; by apply Hhas.
  - split; [|done]. intros l Hl. by apply elem_of_nil in Hl.
Qed.

(** C6, as the code has it. Whatever number k is, the fetches of a crawl
    are made in non-decreasing depth, so every entry of depth d is fetched
    before any entry of depth d+1, and no entry deeper than k is fetched.
    What is put on the frontier is the seed, at depth 0 whatever k is, and
    entries one level under a depth below k. When k is an integer no such
    entry is deeper than k, and none at all when that integer is not
    negative; when k is not an integer an entry can be. *)
Theorem dispatch_is_breadth_first faulty startUrl k fuel cache o :
  run faulty startUrl k fuel cache = Some o ->
  (forall i j ei ej,
      (i < j)%nat ->
      dispatched (final o) !! i = Some ei -> dispatched (final o) !! j = Some ej ->
      depth ei <= depth ej) /\
  (forall e, e ∈ dispatched (final o) -> exceeds (depth e) k = false) /\
  (forall q, q ∈ enqueued (final o) ->
             q = seed startUrl \/ below (depth q - 1) k = true) /\
  (forall z, k = int z ->
             (forall q, q ∈ enqueued (final o) -> q = seed startUrl \/ depth q <= z) /\
             (0 <= z -> forall q, q ∈ enqueued (final o) -> depth q <= z)).
Proof.
  intros Hrun.
  pose proof (run_recorded _ _ _ _ _ _ Hrun) as (_ & _ & _ & Hd & _ & He).
  apply run_bfs_ordered in Hrun as [Hs _].
  apply StronglySorted_app_1_l in Hs.
  split_and!.
  - by apply sorted_lookup.
  - intros e Hin. by apply Hd.
  - done.
  - intros z ->. split.
    + intros q Hq. destruct (He q Hq) as [?|Hb%below_int]; [auto|]. right. lia.
    + intros Hz q Hq. destruct (He q Hq) as [->|Hb%below_int]; [simpl; lia|lia].
Qed.

Lemma iteration_dispatched startUrl k st :
  exists b, dispatched (iteration L normalize browse resolveFavicon startUrl k st).1
            = dispatched st ++ b.
Proof.
  unfold iteration.
  destruct (fillBatch _ _ _ _ _ _ _) as [[b q'] c'].
  destruct b as [|e0 b0]; cbn [fst].
  - exists []. simpl. by rewrite app_nil_r.
  - exists (e0 :: b0).
    match goal with |- context [fold_left _ ?rs ?s] =>
      by destruct (addLinks_fold_frame normalize k rs s) as (_ & _ & ->)
    end.
Qed.

Lemma first_iteration_fetches_seed startUrl k cache :
  exceeds 0 k = false -> (0 < CONCURRENT_FETCHES L)%nat ->
  normalize startUrl = Some startUrl ->
  dispatched (iteration L normalize browse resolveFavicon startUrl k
                        (initial startUrl cache)).1 = [seed startUrl] /\
  (iteration L normalize browse resolveFavicon startUrl k (initial startUrl cache)).2
  = true.
Proof.
  intros Hk Hpos Hseed. unfold iteration, initial. simpl.
  destruct (Nat.leb_spec (CONCURRENT_FETCHES L) 0) as [?|_]; [lia|].
  rewrite Hk, Hseed, String.eqb_refl. simpl.
  destruct (CONCURRENT_FETCHES L <=? 1)%nat; cbn [fst snd]; (split; [|done]);
    match goal with |- context [fold_left _ ?rs ?s] =>
      by destruct (addLinks_fold_frame normalize k rs s) as (_ & _ & ->)
    end.
Qed.

Lemma seed_dropped_iteration startUrl k st :
  exceeds 0 k = true ->
  dispatched st = [] /\ (queue st = [seed startUrl] \/ queue st = []) ->
  dispatched (iteration L normalize browse resolveFavicon startUrl k st).1 = [] /\
  (queue (iteration L normalize browse resolveFavicon startUrl k st).1 = [seed startUrl] \/
   queue (iteration L normalize browse resolveFavicon startUrl k st).1 = []).
Proof.
  intros Hk [Hd [Hq|Hq]]; unfold iteration; rewrite Hq; simpl.
  - destruct (CONCURRENT_FETCHES L <=? 0)%nat; simpl; [auto|].
    rewrite Hk. destruct (CONCURRENT_FETCHES L <=? 0)%nat; simpl; auto.
  - destruct (CONCURRENT_FETCHES L <=? 0)%nat; simpl; auto.
Qed.

(** C7, as the code has it. When k is not below 0 (the test [0 > k] of the
    inner loop fails) a request always ends with the seed fetched exactly
    once, as the first fetch of the crawl, whether or not the cache held
    the seed before; no other url that the cache held before the request
    is fetched. When k is below 0 the seed is dropped at the head of the
    first batch, nothing is fetched and the graph is empty. *)
Theorem seed_fetched_exactly_once faulty u reset startUrl k cache cache' :
  (forall s t, normalize s = Some t -> normalize t = Some t) ->
  (0 < TOTAL_NODES L)%nat -> (0 < CONCURRENT_FETCHES L)%nat ->
  faulty 0%nat = false ->
  session normalize u reset cache = Some (startUrl, cache') ->
  (exists fuel o, run faulty startUrl k fuel cache' = Some o) /\
  (exceeds 0 k = false ->
   forall fuel o,
     run faulty startUrl k fuel cache' = Some o ->
     exists rest,
       dispatched (final o) = seed startUrl :: rest /\
       forall e, e ∈ rest ->
                 url e <> startUrl /\ url e ∉ (if reset then ∅ else cache : gset string)) /\
  (exceeds 0 k = true ->
   forall fuel o,
     run faulty startUrl k fuel cache' = Some o ->
     dispatched (final o) = [] /\ graph_nodes (buildGraph o) = []).
Proof.
  intros Hidem Htotal Hconc Hfault [Hu Hcache]%session_inv.
  assert (normalize startUrl = Some startUrl) as Hseed by eauto.
  split; [apply crawlLoop_terminates|]. split.
  2:{ intros Hk fuel o Hrun.
      pose proof (run_recorded _ _ _ _ _ _ Hrun) as (Hnodes & _).
      assert (dispatched (final o) = []) as Hnone.
      { eapply (crawlLoop_rule _ _ _ _ _ _ _
                  (fun st => dispatched st = [] /\
                             (queue st = [seed startUrl] \/ queue st = []))) in Hrun;
          [by destruct Hrun| |by split; [|left]].
        intros st Hst _. by apply seed_dropped_iteration. }
      split; [done|].
      destruct o as [st|st]; simpl in *; [|done].
      destruct (nodes st) as [|kv ns] eqn:Hns; [done|].
      destruct (proj1 (Hnodes kv)) as (e & He & _); [apply elem_of_cons; auto|].
      rewrite Hnone in He. by apply elem_of_nil in He. }
  intros Hk fuel o Hrun.
  pose proof (run_recorded _ _ _ _ _ _ Hrun) as (_ & _ & _ & Hd & _).
  pose proof (run_once _ _ _ _ _ _ Hidem Hseed Hrun) as (Hnd & _).
  assert (exists rest, dispatched (final o) = seed startUrl :: rest) as [rest Hrest].
  { unfold run in Hrun. destruct fuel as [|fuel]; [done|].
    rewrite crawlLoop_S in Hrun.
    destruct (first_iteration_fetches_seed startUrl k cache' Hk Hconc Hseed)
      as [Hfirst Hgo].
    assert (loopCondition L (initial startUrl cache') = true) as Hcond.
    { unfold loopCondition. simpl. by apply Nat.ltb_lt. }
    rewrite Hcond, Hfault, Hgo in Hrun.
    eapply (crawlLoop_rule _ _ _ _ _ _ _
              (fun st => exists rest, dispatched st = seed startUrl :: rest)) in Hrun;
      [done| |by rewrite Hfirst; eauto].
    intros st [r Hr] _.
    destruct (iteration_dispatched startUrl k st) as [b ->].
    rewrite Hr. eauto. }
  exists rest. split; [done|]. intros e He.
  rewrite Hrest in Hnd, Hd. simpl in Hnd. apply NoDup_cons in Hnd as [Hnotin _].
  assert (url e <> startUrl) as Hne.
  { intros Heq. apply Hnotin. rewrite <- Heq. apply list_elem_of_fmap. eauto. }
  split; [done|].
  destruct (Hd e) as [_ [?|Hout]]; [apply elem_of_cons; auto|done|].
  subst cache'. set_solver.
Qed.



Lemma iteration_breaks startUrl k st :
  (iteration L normalize browse resolveFavicon startUrl k st).2 = false <->
  (fillBatch L normalize startUrl k [] (queue st) (urlCache st)).1.1 = [].
Proof.
  unfold iteration.
  destruct (fillBatch _ _ _ _ _ _ _) as [[b q'] c'].
  by destruct b.
Qed.

(** C9. Whatever the seed, the depth bound and the behaviour of the
    fetcher, the crawl loop returns; without a fault of the runtime it is
    left at a state exactly when the frontier is empty there, or the
    processed count has reached the budget, or no entry of the frontier
    passes the test of the inner loop (depth at most k, a url that parses,
    the seed or a url not in the cache); and the state it ends in has an
    empty frontier or a used up budget. *)
Theorem crawl_loop_terminates_exactly_when startUrl k cache :
  (0 < CONCURRENT_FETCHES L)%nat ->
  (forall faulty, exists fuel o, run faulty startUrl k fuel cache = Some o) /\
  (forall i st,
      is_Some (crawlLoop L normalize browse resolveFavicon no_fault startUrl k 1 i st) <->
      queue st = [] \/ (TOTAL_NODES L <= processedCount st)%nat \/
      forall e, e ∈ queue st -> ~ dispatchable normalize startUrl k (urlCache st) e) /\
  (forall fuel o, run no_fault startUrl k fuel cache = Some o -> left_normally L o).
Proof.
  intros Hconc. split_and!.
  - intros faulty. apply crawlLoop_terminates.
  - intros i st. rewrite crawlLoop_S.
    pose proof (loopCondition_false L st) as Hcond.
    pose proof (iteration_breaks startUrl k st) as Hbreak.
    rewrite fillBatch_empty in Hbreak by done.
    destruct (loopCondition L st).
    + unfold no_fault at 1.
      destruct (iteration _ _ _ _ _ _ st).2; simpl.
      * split; [by intros [? [=]]|]. intros Hex. exfalso.
        assert (true = false); [|done].
        destruct Hex as [H|[H|H]]; [apply Hcond|apply Hcond|apply Hbreak]; auto.
      * split; [|eauto]. intros _. right. right. by apply Hbreak.
    + split; [|eauto]. intros _. destruct (proj1 Hcond) as [?|?]; auto.
  - intros fuel o Hrun. unfold run in Hrun.
    by eapply crawlLoop_left_normally in Hrun.
Qed.

End Claims.

(** * The claims on the concrete sites *)

(** C1. With the constants of the program (TOTAL_NODES = 50, batches of 5)
    the crawl of the fan site from its root with k = 2 processes 51 results
    and returns 51 nodes: the seed, four batches for its twenty links, then
    six batches that take the count to 46 < 50 and a seventh to 51. *)
Theorem budget_overshoot_on_fan :
  run LIMITS parse fan resolve no_fault "http://s/" (int 2) 20 ∅ = Some fan_outcome /\
  TOTAL_NODES LIMITS = 50%nat /\
  processedCount (final fan_outcome) = 51%nat /\
  length (graph_nodes (buildGraph fan_outcome)) = 51%nat.
Proof. split_and!; vm_compute; reflexivity. Qed.

Lemma parse_idem s t : parse s = Some t -> parse t = Some t.
Proof.
  unfold parse. destruct (startsWith s "http") eqn:Hs; [|done].
  intros [= <-]. by rewrite Hs.
Qed.

Lemma processed_at_most_budget_plus_batch_witness :
  run LIMITS parse fan resolve no_fault "http://s/" (int 2) 20 ∅ = Some fan_outcome /\
  (processedCount (final fan_outcome) <= 54)%nat /\
  (length (graph_nodes (buildGraph fan_outcome)) <= processedCount (final fan_outcome))%nat.
Proof.
  assert (run LIMITS parse fan resolve no_fault "http://s/" (int 2) 20 ∅ = Some fan_outcome)
    as Hrun by (vm_compute; reflexivity).
  split; [exact Hrun|].
  exact (processed_at_most_budget_plus_batch
           LIMITS parse fan resolve no_fault "http://s/" (int 2) 20%nat ∅ fan_outcome Hrun).
Defined.

(** C2 fails as stated: a fault in the second iteration of the crawl of
    the site finds the node of a and two links accumulated, and the crawl
    returns a graph without nodes. *)
Lemma abort_drops_accumulated_graph :
  run LIMITS parse site resolve (fault_at 1) "http://a/" (int 1) 10 ∅
  = Some (Aborted (final site_aborted)) /\
  map fst (nodes (final site_aborted)) = ["http://a/"] /\
  links_set (final site_aborted)
  = [{| source := "http://a/"; target := "http://b/" |};
     {| source := "http://a/"; target := "http://c/" |}] /\
  option_map fst (crawlKHops LIMITS parse site resolve (fault_at 1) 10 "http://a/" (int 1) ∅)
  = Some {| graph_nodes := []; graph_links := [] |}.
Proof. split_and!; vm_compute; reflexivity. Qed.

Lemma scheduler_fault_returns_empty_graph_witness :
  api_crawl LIMITS parse site resolve (fault_at 1) 10 "http://a/" (int 1) false ∅
  = Some (Json {| graph_nodes := []; graph_links := [] |},
          urlCache (final site_aborted)) /\
  exists i, fault_at 1 i = true.
Proof.
  apply (scheduler_fault_returns_empty_graph
           LIMITS parse site resolve (fault_at 1)
           "http://a/" false "http://a/" (int 1) 10%nat ∅ (∅ ∖ {["http://a/"]})
           (final site_aborted)).
  - vm_compute; reflexivity.
  - vm_compute; reflexivity.
Defined.

Lemma no_url_fetched_twice_witness :
  map url (dispatched (final (site_outcome (int 2) ∅)))
  = ["http://a/"; "http://b/"; "http://c/"; "http://d/"] /\
  forall i j ei ej,
    dispatched (final (site_outcome (int 2) ∅)) !! i = Some ei ->
    dispatched (final (site_outcome (int 2) ∅)) !! j = Some ej ->
    url ei = url ej -> i = j.
Proof.
  split; [vm_compute; reflexivity|].
  apply (no_url_fetched_twice
           LIMITS parse site resolve no_fault
           "http://a/" false "http://a/" (int 2) 10%nat ∅ (∅ ∖ {["http://a/"]})
           (site_outcome (int 2) ∅)).
  - exact parse_idem.
  - vm_compute; reflexivity.
  - vm_compute; reflexivity.
Defined.

Lemma edges_recorded_below_depth_k_witness :
  links_set (final (site_outcome (int 2) ∅))
  = [{| source := "http://a/"; target := "http://b/" |};
     {| source := "http://a/"; target := "http://c/" |};
     {| source := "http://b/"; target := "http://d/" |};
     {| source := "http://b/"; target := "http://a/" |}] /\
  ((forall x e, x ∈ links_set (final (site_outcome (int 2) ∅)) ->
                e ∈ dispatched (final (site_outcome (int 2) ∅)) ->
                url e = source x -> below (depth e) (int 2) = true) /\
   (forall e info href t,
       e ∈ dispatched (final (site_outcome (int 2) ∅)) ->
       getPageInfo LIMITS site resolve (url e) = fulfilled info ->
       below (depth e) (int 2) = true -> href ∈ links info -> parse href = Some t ->
       {| source := url e; target := t |} ∈ links_set (final (site_outcome (int 2) ∅)))).
Proof.
  split; [vm_compute; reflexivity|].
  apply (edges_recorded_below_depth_k
           LIMITS parse site resolve no_fault
           "http://a/" false "http://a/" (int 2) 10%nat ∅ (∅ ∖ {["http://a/"]})
           (site_outcome (int 2) ∅)).
  - exact parse_idem.
  - vm_compute; reflexivity.
  - vm_compute; reflexivity.
Defined.

Lemma no_dangling_edges_witness :
  graph_links (buildGraph (site_outcome (int 2) ∅))
  = [{| source := "http://a/"; target := "http://b/" |};
     {| source := "http://a/"; target := "http://c/" |};
     {| source := "http://b/"; target := "http://a/" |}] /\
  ((forall l, l ∈ graph_links (buildGraph (site_outcome (int 2) ∅)) ->
              (exists n, n ∈ graph_nodes (buildGraph (site_outcome (int 2) ∅)) /\ id n = source l) /\
              (exists n, n ∈ graph_nodes (buildGraph (site_outcome (int 2) ∅)) /\ id n = target l) /\
              l ∈ links_set (final (site_outcome (int 2) ∅))) /\
   (forall st l, site_outcome (int 2) ∅ = Completed st -> l ∈ links_set st ->
                 (exists n, n ∈ graph_nodes (buildGraph (site_outcome (int 2) ∅)) /\ id n = source l) ->
                 (exists n, n ∈ graph_nodes (buildGraph (site_outcome (int 2) ∅)) /\ id n = target l) ->
                 l ∈ graph_links (buildGraph (site_outcome (int 2) ∅)))).
Proof.
  split; [vm_compute; reflexivity|].
  apply (no_dangling_edges
           LIMITS parse site resolve no_fault "http://a/" (int 2) 10%nat ∅ (site_outcome (int 2) ∅)).
  vm_compute; reflexivity.
Defined.

(** C6 fails as stated: with k = -1 the seed is put on the frontier at
    depth 0, which exceeds k; and with k = 1/2 the two links of a, fetched
    at depth 0 < k, are put on the frontier at depth 1, which exceeds k,
    and are dropped when they are popped. *)
Lemma entries_enqueued_deeper_than_k :
  (run LIMITS parse site resolve no_fault "http://a/" (int (-1)) 10 ∅
   = Some (site_outcome (int (-1)) ∅) /\
   enqueued (final (site_outcome (int (-1)) ∅)) = [{| url := "http://a/"; depth := 0 |}] /\
   exceeds 0 (int (-1)) = true) /\
  (run LIMITS parse site resolve no_fault "http://a/" half 10 ∅
   = Some (site_outcome half ∅) /\
   enqueued (final (site_outcome half ∅))
   = [{| url := "http://a/"; depth := 0 |};
      {| url := "http://b/"; depth := 1 |};
      {| url := "http://c/"; depth := 1 |}] /\
   exceeds 1 half = true /\
   dispatched (final (site_outcome half ∅)) = [{| url := "http://a/"; depth := 0 |}]).
Proof. split_and!; vm_compute; reflexivity. Qed.

Lemma dispatch_is_breadth_first_witness :
  map depth (dispatched (final (site_outcome (int 2) ∅))) = [0; 1; 1; 2] /\
  ((forall i j ei ej,
       (i < j)%nat ->
       dispatched (final (site_outcome (int 2) ∅)) !! i = Some ei ->
       dispatched (final (site_outcome (int 2) ∅)) !! j = Some ej ->
       depth ei <= depth ej) /\
   (forall e, e ∈ dispatched (final (site_outcome (int 2) ∅)) ->
              exceeds (depth e) (int 2) = false) /\
   (forall q, q ∈ enqueued (final (site_outcome (int 2) ∅)) ->
              q = seed "http://a/" \/ below (depth q - 1) (int 2) = true) /\
   (forall z, int 2 = int z ->
              (forall q, q ∈ enqueued (final (site_outcome (int 2) ∅)) ->
                         q = seed "http://a/" \/ depth q <= z) /\
              (0 <= z -> forall q, q ∈ enqueued (final (site_outcome (int 2) ∅)) ->
                                   depth q <= z))).
Proof.
  split; [vm_compute; reflexivity|].
  apply (dispatch_is_breadth_first
           LIMITS parse site resolve no_fault "http://a/" (int 2) 10%nat ∅ (site_outcome (int 2) ∅)).
  vm_compute; reflexivity.
Defined.

(** C7 fails as stated: with k = -1 the request is answered without any
    fetch, the seed is not fetched. *)
Lemma seed_not_fetched_when_k_negative :
  run LIMITS parse site resolve no_fault "http://a/" (int (-1)) 10 ∅
  = Some (site_outcome (int (-1)) ∅) /\
  dispatched (final (site_outcome (int (-1)) ∅)) = [] /\
  option_map fst (api_crawl LIMITS parse site resolve no_fault 10 "http://a/" (int (-1)) false ∅)
  = Some (Json {| graph_nodes := []; graph_links := [] |}).
Proof. split_and!; vm_compute; reflexivity. Qed.

Lemma seed_fetched_exactly_once_witness :
  map url (dispatched (final site_revisited)) = ["http://a/"; "http://c/"] /\
  ((exists fuel o,
       run LIMITS parse site resolve no_fault "http://a/" (int 2) fuel
           (visited_before ∖ {["http://a/"]}) = Some o) /\
   (exceeds 0 (int 2) = false ->
    forall fuel o,
      run LIMITS parse site resolve no_fault "http://a/" (int 2) fuel
          (visited_before ∖ {["http://a/"]}) = Some o ->
      exists rest,
        dispatched (final o) = seed "http://a/" :: rest /\
        forall e, e ∈ rest -> url e <> "http://a/" /\ url e ∉ visited_before) /\
   (exceeds 0 (int 2) = true ->
    forall fuel o,
      run LIMITS parse site resolve no_fault "http://a/" (int 2) fuel
          (visited_before ∖ {["http://a/"]}) = Some o ->
      dispatched (final o) = [] /\ graph_nodes (buildGraph o) = [])).
Proof.
  split; [vm_compute; reflexivity|].
  apply (seed_fetched_exactly_once
           LIMITS parse site resolve no_fault
           "http://a/" false "http://a/" (int 2) visited_before
           (visited_before ∖ {["http://a/"]})).
  - exact parse_idem.
  - simpl; lia.
  - simpl; lia.
  - reflexivity.
  - vm_compute; reflexivity.
Defined.


Lemma crawl_loop_terminates_exactly_when_witness :
  (0 < CONCURRENT_FETCHES LIMITS)%nat /\
  ((forall faulty, exists fuel o,
       run LIMITS parse site resolve faulty "http://a/" (int 1) fuel ∅ = Some o) /\
   (forall i st,
       is_Some (crawlLoop LIMITS parse site resolve no_fault "http://a/" (int 1) 1 i st) <->
       queue st = [] \/ (TOTAL_NODES LIMITS <= processedCount st)%nat \/
       forall e, e ∈ queue st -> ~ dispatchable parse "http://a/" (int 1) (urlCache st) e) /\
   (forall fuel o,
       run LIMITS parse site resolve no_fault "http://a/" (int 1) fuel ∅ = Some o ->
       left_normally LIMITS o)).
Proof.
  assert (0 < CONCURRENT_FETCHES LIMITS)%nat as Hpos by (simpl; lia).
  split; [exact Hpos|].
  exact (crawl_loop_terminates_exactly_when
           LIMITS parse site resolve "http://a/" (int 1) ∅ Hpos).
Defined.

(** * Beyond the claims *)

(** * Pages: the link filter, the favicon and the request interception *)

Lemma append_nil b : ("" ++ b)%string = b.
Proof. reflexivity. Qed.

Lemma append_cons c a b : (String c a ++ b)%string = String c (a ++ b)%string.
Proof. reflexivity. Qed.

Lemma append_assoc a b c : ((a ++ b) ++ c)%string = (a ++ b ++ c)%string.
Proof. induction a as [|d a IH]; [done|]. by rewrite !append_cons, IH. Qed.

Lemma append_length a b :
  String.length (a ++ b)%string = (String.length a + String.length b)%nat.
Proof. induction a as [|c a IH]; [done|]. rewrite append_cons. simpl. by rewrite IH. Qed.

Lemma startsWith_spec s p :
  startsWith s p = true <-> exists b, s = (p ++ b)%string.
Proof.
  unfold startsWith. revert s.
  induction p as [|c p IH]; intros s.
  - destruct s; simpl; (split; [intros _; by eexists|done]).
  - setoid_rewrite append_cons. destruct s as [|d s]; simpl.
    + split; [done|]. by intros [b [=]].
    + destruct (Ascii.ascii_dec c d) as [->|Hne].
      * rewrite IH. split; intros [b Hb]; exists b; congruence.
      * split; [done|]. intros [b Hb]. congruence.
Qed.

Lemma includes_nil sub : includes "" sub = startsWith "" sub.
Proof. unfold startsWith. simpl. apply orb_false_r. Qed.

Lemma includes_cons c s sub :
  includes (String c s) sub = startsWith (String c s) sub || includes s sub.
Proof. reflexivity. Qed.

Lemma includes_spec s sub :
  includes s sub = true <-> exists a b, s = (a ++ sub ++ b)%string.
Proof.
  induction s as [|c s IH].
  - rewrite includes_nil, startsWith_spec. split.
    + intros [b Hb]. by exists "", b.
    + intros (a & b & Hab). destruct a; [eauto|]. by rewrite append_cons in Hab.
  - rewrite includes_cons, orb_true_iff, IH, startsWith_spec. split.
    + intros [[b Hb]|(a & b & Hab)].
      * by exists "", b.
      * exists (String c a), b. by rewrite append_cons, Hab.
    + intros (a & b & Hab). destruct a as [|d a].
      * left. eauto.
      * right. rewrite append_cons in Hab. injection Hab as -> ->. eauto.
Qed.

Lemma substring_app_r a b :
  String.substring (String.length a) (String.length b) (a ++ b)%string = b.
Proof.
  induction a as [|c a IH]; [|by rewrite append_cons].
  rewrite append_nil. simpl.
  induction b as [|d b IHb]; simpl; [done|]. by rewrite IHb.
Qed.

Lemma substring_split n : forall s,
  (n <= String.length s)%nat ->
  s = (String.substring 0 n s
       ++ String.substring n (String.length s - n) s)%string.
Proof.
  induction n as [|n IH]; intros s Hn.
  - rewrite Nat.sub_0_r.
    assert (forall t, String.substring 0 (String.length t) t = t) as Hid.
    { induction t as [|d t IHt]; simpl; [done|]. by rewrite IHt. }
    rewrite Hid. by destruct s.
  - destruct s as [|c s]; simpl in *; [lia|].
    rewrite append_cons. f_equal. apply IH. lia.
Qed.

Lemma endsWith_spec s suf :
  endsWith s suf = true <-> exists a, s = (a ++ suf)%string.
Proof.
  unfold endsWith. rewrite andb_true_iff, Nat.leb_le, String.eqb_eq. split.
  - intros [Hle Heq].
    exists (String.substring 0 (String.length s - String.length suf) s).
    pose proof (substring_split (String.length s - String.length suf) s) as Hsplit.
    replace (String.length s - (String.length s - String.length suf))%nat
      with (String.length suf) in Hsplit by lia.
    rewrite Heq in Hsplit. apply Hsplit. lia.
  - intros [a ->]. rewrite append_length. split; [lia|].
    replace (String.length a + String.length suf - String.length suf)%nat
      with (String.length a) by lia.
    apply substring_app_r.
Qed.

Lemma negb_iff b (P : Prop) : (b = true <-> P) -> (negb b = true <-> ~ P).
Proof. intros H. rewrite negb_true_iff, <- not_true_iff_false, H. done. Qed.

(** X1. The filter of the anchors, as a statement on the text of the href: it
    is kept exactly when it is not empty, begins with http, has no # in it,
    does not end in .pdf, .jpg or .png, and does not contain javascript: or
    mailto: anywhere. *)
Theorem keepLink_spec href :
  keepLink href = true <->
  href <> "" /\
  (exists b, href = ("http" ++ b)%string) /\
  ~ (exists a b, href = (a ++ "#" ++ b)%string) /\
  ~ (exists a, href = (a ++ ".pdf")%string) /\
  ~ (exists a, href = (a ++ ".jpg")%string) /\
  ~ (exists a, href = (a ++ ".png")%string) /\
  ~ (exists a b, href = (a ++ "javascript:" ++ b)%string) /\
  ~ (exists a b, href = (a ++ "mailto:" ++ b)%string).
Proof.
  unfold keepLink. rewrite !andb_true_iff.
  rewrite (negb_iff _ _ (String.eqb_eq href "")).
  rewrite startsWith_spec.
  rewrite !(negb_iff _ _ (includes_spec href _)).
  rewrite !(negb_iff _ _ (endsWith_spec href _)).
  tauto.
Qed.

Lemma has_eqb_elem x (l : list string) : has String.eqb x l = true <-> x ∈ l.
Proof.
  unfold has. rewrite existsb_exists. split.
  - intros (y & Hin & ->%String.eqb_eq). by apply list_elem_of_In.
  - intros Hin. exists x. split; [by apply list_elem_of_In|apply String.eqb_refl].
Qed.

Lemma unique_from l : forall acc,
  NoDup acc ->
  NoDup (fold_left (fun acc x => if has String.eqb x acc then acc else acc ++ [x]) l acc) /\
  (forall x, x ∈ fold_left (fun acc x => if has String.eqb x acc then acc else acc ++ [x]) l acc
             <-> x ∈ acc \/ x ∈ l) /\
  exists rest,
    fold_left (fun acc x => if has String.eqb x acc then acc else acc ++ [x]) l acc
    = acc ++ rest /\ rest `sublist_of` l.
Proof.
  induction l as [|y l IH]; intros acc Hnd; simpl.
  - split_and!; [done| |].
    + intros x. rewrite elem_of_nil. tauto.
    + exists []. by rewrite app_nil_r.
  - destruct (has String.eqb y acc) eqn:Hy.
    + apply has_eqb_elem in Hy.
      destruct (IH acc Hnd) as (H1 & H2 & rest & H3 & H4). split_and!; [done| |].
      * intros x. rewrite H2, elem_of_cons. split; [tauto|].
        intros [?|[->|?]]; auto.
      * exists rest. split; [done|]. by apply sublist_cons.
    + assert (y ∉ acc) as Hnotin.
      { intros Hin%has_eqb_elem. congruence. }
      assert (NoDup (acc ++ [y])) as Hnd'.
      { apply NoDup_app. split_and!; [done| |apply NoDup_singleton].
        intros x Hx ->%list_elem_of_singleton. done. }
      destruct (IH _ Hnd') as (H1 & H2 & rest & H3 & H4). split_and!; [done| |].
      * intros x. rewrite H2, elem_of_app, list_elem_of_singleton, elem_of_cons. tauto.
      * exists (y :: rest). split; [by rewrite H3, <- app_assoc|]. by apply sublist_skip.
Qed.

Lemma unique_spec l :
  NoDup (unique l) /\ (forall x, x ∈ unique l <-> x ∈ l) /\ unique l `sublist_of` l.
Proof.
  destruct (unique_from l [] (NoDup_nil_2)) as (H1 & H2 & rest & H3 & H4).
  unfold unique. split_and!; [done| |].
  - intros x. rewrite H2, elem_of_nil. tauto.
  - by rewrite H3.
Qed.

Section Pages.

Variable L : Limits.
Variable browse : string -> browser_run.
Variable resolveFavicon : string -> string -> option string.

Lemma uniqueLinks_kept hrefs :
  (length (uniqueLinks L hrefs) <= LINKS_PER_PAGE L)%nat /\
  NoDup (uniqueLinks L hrefs) /\
  (forall h, h ∈ uniqueLinks L hrefs -> h ∈ hrefs /\ keepLink h = true).
Proof.
  unfold uniqueLinks.
  destruct (unique_spec (filter (fun h => keepLink h = true) hrefs)) as (Hnd & Hin & Hsub).
  split_and!.
  - rewrite length_take. lia.
  - eapply sublist_NoDup; [done|apply sublist_take].
  - intros h Hh.
    assert (h ∈ filter (fun h => keepLink h = true) hrefs) as [? ?]%list_elem_of_filter;
      [|done].
    apply Hin. eapply sublist_subseteq; [apply sublist_take|done].
Qed.

Lemma getPageInfo_links_length u info :
  getPageInfo L browse resolveFavicon u = fulfilled info ->
  (length (links info) <= LINKS_PER_PAGE L)%nat.
Proof.
  unfold getPageInfo. destruct (browse u) as [| |d]; [done| |]; intros [= <-]; simpl.
  - lia.
  - apply uniqueLinks_kept.
Qed.

(** X2. The links of a fetched page: at most LINKS_PER_PAGE, pairwise distinct,
    and each one passes the filter of the anchors; the value of the catch
    has none. *)
Theorem page_links_bounded_distinct_kept u info :
  getPageInfo L browse resolveFavicon u = fulfilled info ->
  (length (links info) <= LINKS_PER_PAGE L)%nat /\
  NoDup (links info) /\
  (forall h, h ∈ links info -> keepLink h = true) /\
  (browse u = PageThrows -> links info = []).
Proof.
  unfold getPageInfo. destruct (browse u) as [| |d]; [done| |]; intros [= <-]; simpl.
  - split_and!; [lia|apply NoDup_nil_2| |done]. intros h Hh. by apply elem_of_nil in Hh.
  - destruct (uniqueLinks_kept (doc_hrefs d)) as (H1 & H2 & H3).
    split_and!; [done..| |done]. intros h Hh. by apply H3.
Qed.

(** X3. The links kept of a page come in the order of the anchors of the page,
    and when the page has no more than LINKS_PER_PAGE anchors that pass the
    filter, every one of them is among the links. *)
Theorem uniqueLinks_in_order_and_complete hrefs :
  uniqueLinks L hrefs `sublist_of` hrefs /\
  ((length (filter (fun h => keepLink h = true) hrefs) <= LINKS_PER_PAGE L)%nat ->
   forall h, h ∈ hrefs -> keepLink h = true -> h ∈ uniqueLinks L hrefs).
Proof.
  unfold uniqueLinks.
  destruct (unique_spec (filter (fun h => keepLink h = true) hrefs)) as (Hnd & Hin & Hsub).
  split.
  - etrans; [apply sublist_take|]. etrans; [exact Hsub|]. apply sublist_filter.
  - intros Hlen h Hh Hkeep.
    rewrite take_ge.
    + apply Hin, list_elem_of_filter. done.
    + etrans; [|exact Hlen]. by apply sublist_length.
Qed.

(** X4. The favicon of a fetched page is never a path from the root of a site:
    what the page gives as such is resolved against the origin of the page,
    the resolver returning absolute urls. *)
Theorem favicon_never_root_relative u info f :
  (forall fav page r, resolveFavicon fav page = Some r -> startsWith r "/" = false) ->
  getPageInfo L browse resolveFavicon u = fulfilled info ->
  favicon info = Some f ->
  startsWith f "/" = false.
Proof.
  intros Habs. unfold getPageInfo.
  destruct (browse u) as [| |d]; [done| |]; intros [= <-]; simpl; [done|].
  destruct (String.eqb_spec (doc_favicon d) "") as [Hempty|_]; simpl.
  - intros [= <-]. by rewrite Hempty.
  - destruct (startsWith (doc_favicon d) "/") eqn:Hroot.
    + by apply Habs.
    + by intros [= <-].
Qed.

End Pages.

(** X5. Requests of the page: an image is let through exactly when its url
    contains icon (the test on favicon adds nothing), a stylesheet, a font or
    a media file never, every other request always. *)
Theorem interceptRequest_spec resourceType reqUrl :
  interceptRequest resourceType reqUrl = true <->
  (resourceType = "image" /\ exists a b, reqUrl = (a ++ "icon" ++ b)%string) \/
  (resourceType <> "image" /\ resourceType ∉ ["stylesheet"; "font"; "media"]).
Proof.
  unfold interceptRequest.
  assert (includes reqUrl "favicon" = true -> includes reqUrl "icon" = true) as Hsub.
  { rewrite !includes_spec. intros (a & b & ->).
    exists (a ++ "fav")%string, b. by rewrite append_assoc. }
  rewrite <- includes_spec.
  destruct (String.eqb_spec resourceType "image") as [->|Hne]; cbn [andb].
  - destruct (includes reqUrl "icon") eqn:Hicon.
    + rewrite andb_false_r. simpl. split; [intros _; left; split; reflexivity|done].
    + destruct (includes reqUrl "favicon") eqn:Hfav; [specialize (Hsub eq_refl); congruence|].
      simpl. split; [intros [=]|]. intros [[_ ?]|[? _]]; congruence.
  - destruct (has String.eqb resourceType ["stylesheet"; "font"; "media"]) eqn:Hin.
    + apply has_eqb_elem in Hin. split; [intros [=]|]. intros [[? _]|[_ ?]]; [congruence|done].
    + split; [|done]. intros _. right. split; [done|].
      intros Hin'%has_eqb_elem. congruence.
Qed.

Lemma firstHref_found querySelector sels href :
  firstHref querySelector sels = Some href ->
  href <> "" /\ exists sel, sel ∈ sels /\ querySelector sel = Some href.
Proof.
  induction sels as [|sel sels IH]; simpl; [done|].
  destruct (querySelector sel) as [h|] eqn:Hq.
  - destruct (String.eqb_spec h "") as [->|Hne].
    + intros [Hne (s & Hin & Hs)]%IH. split; [done|]. exists s. split; [|done].
      apply elem_of_cons; auto.
    + intros [= <-]. split; [done|]. exists sel. split; [|done]. apply elem_of_cons; auto.
  - intros [Hne (s & Hin & Hs)]%IH. split; [done|]. exists s. split; [|done].
    apply elem_of_cons; auto.
Qed.

(** X6. The favicon lookup never returns an empty text: it returns a non-empty
    href that one of its selectors finds, and the default path when no
    selector finds one. *)
Theorem getFavicon_never_empty querySelector :
  getFavicon querySelector <> "" /\
  ((exists sel, sel ∈ selectors /\ querySelector sel = Some (getFavicon querySelector)) \/
   (getFavicon querySelector = "/favicon.ico" /\
    forall sel href, sel ∈ selectors -> querySelector sel = Some href -> href = "")).
Proof.
  unfold getFavicon.
  destruct (firstHref querySelector selectors) as [href|] eqn:Hf.
  - apply firstHref_found in Hf as [Hne Hsel]. split; [done|]. by left.
  - split; [done|]. right. split; [done|].
    revert Hf. generalize selectors. intros sels.
    induction sels as [|s sels IH]; simpl; intros Hf sel href Hin Hq.
    + by apply elem_of_nil in Hin.
    + apply elem_of_cons in Hin as [->|Hin].
      * rewrite Hq in Hf. by destruct (String.eqb_spec href "").
      * destruct (querySelector s) as [h|]; [|by eapply IH].
        destruct (String.eqb h ""); [by eapply IH|done].
Qed.

(** * The node map and the link set *)

Lemma map_set_elem_of key v m kv :
  kv ∈ map_set key v m -> kv ∈ m \/ kv = (key, v).
Proof.
  induction m as [|[k' v'] m IH]; simpl.
  - rewrite list_elem_of_singleton. auto.
  - destruct (String.eqb_spec k' key) as [->|Hne]; rewrite !elem_of_cons; tauto.
Qed.

Lemma map_set_keys key v m :
  NoDup (fst <$> m) -> NoDup (fst <$> map_set key v m).
Proof.
  induction m as [|[k' v'] m IH]; simpl; intros Hnd.
  - apply NoDup_singleton.
  - apply NoDup_cons in Hnd as [Hnotin Hnd].
    destruct (String.eqb_spec k' key) as [->|Hne]; simpl.
    + by apply NoDup_cons.
    + apply NoDup_cons. split; [|by apply IH].
      intros ([k2 v2] & Heq & [Hin|Hin]%map_set_elem_of)%list_elem_of_fmap;
        simpl in Heq; subst k2.
      * apply Hnotin. apply list_elem_of_fmap. by exists (k', v2).
      * congruence.
Qed.

Lemma set_add_NoDup e s : NoDup s -> NoDup (set_add e s).
Proof.
  intros Hnd. unfold set_add, has.
  destruct (existsb (link_eqb e) s) eqn:Hex; [done|].
  apply NoDup_app. split_and!; [done| |apply NoDup_singleton].
  intros x Hx ->%list_elem_of_singleton.
  apply not_true_iff_false in Hex. apply Hex, existsb_exists.
  exists e. split; [by apply list_elem_of_In|by apply link_eqb_eq].
Qed.

Section Graph.

Variable L : Limits.
Variable normalize : string -> option string.
Variable browse : string -> browser_run.
Variable resolveFavicon : string -> string -> option string.
Variable startUrl : string.
Variable k : number.

Abbreviation fillBatch := (fillBatch L normalize startUrl k).
Abbreviation iteration := (iteration L normalize browse resolveFavicon startUrl k).
Abbreviation getPageInfo := (getPageInfo L browse resolveFavicon).
Abbreviation fetchBatch := (fetchBatch L browse resolveFavicon).
Abbreviation fetchEntry := (fetchEntry L browse resolveFavicon).
Abbreviation addLink := (addLink normalize).
Abbreviation addLinks := (addLinks normalize k).

Lemma addLink_distinct src st href :
  NoDup (links_set st) -> NoDup (links_set (addLink src st href)).
Proof.
  intros Hnd. unfold addLink. destruct (normalize href); [|done].
  destruct (bool_decide _); simpl; by apply set_add_NoDup.
Qed.

Lemma addLinks_distinct st r :
  NoDup (links_set st) -> NoDup (links_set (addLinks st r)).
Proof.
  intros Hnd. destruct r as [[e info]|]; [|done]. simpl.
  destruct (below (depth e) k); [|done].
  apply (fold_left_preserves (fun s => NoDup (links_set s))); [|done].
  intros s href _. apply addLink_distinct.
Qed.

Lemma distinct_iteration st : distinct st -> distinct (iteration st).1.
Proof.
  intros [Hn Hl]. unfold iteration.
  destruct (fillBatch [] (queue st) (urlCache st)) as [[b q'] c'].
  destruct b as [|e0 b0]; cbn [fst]; [done|].
  remember (e0 :: b0) as b eqn:Hb. clear Hb.
  match goal with |- distinct (fold_left _ ?rs ?s) =>
    destruct (addLinks_fold_frame normalize k rs s) as (Hnodes & _ & _)
  end.
  split.
  - rewrite Hnodes. simpl.
    apply (fold_left_preserves (fun ns => NoDup (fst <$> ns))); [|done].
    intros ns r _ Hns. destruct r as [[e info]|]; [|done]. by apply map_set_keys.
  - apply (fold_left_preserves (fun s => NoDup (links_set s))); [|done].
    intros s r _. apply addLinks_distinct.
Qed.

Lemma addLink_fold_growth src ls : forall st,
  (length (enqueued (fold_left (addLink src) ls st))
   <= length (enqueued st) + length ls)%nat /\
  (length (links_set (fold_left (addLink src) ls st))
   <= length (links_set st) + length ls)%nat /\
  (length (queue (fold_left (addLink src) ls st)) + length (enqueued st)
   = length (queue st) + length (enqueued (fold_left (addLink src) ls st)))%nat.
Proof.
  induction ls as [|href ls IH]; intros st; simpl; [lia|].
  destruct (IH (addLink src st href)) as (H1 & H2 & H3).
  assert ((length (enqueued (addLink src st href)) <= length (enqueued st) + 1)%nat /\
          (length (links_set (addLink src st href)) <= length (links_set st) + 1)%nat /\
          (length (queue (addLink src st href)) + length (enqueued st)
           = length (queue st) + length (enqueued (addLink src st href)))%nat)
    as (G1 & G2 & G3).
  { unfold addLink. destruct (normalize href) as [n|]; [|lia].
    assert (length (set_add {| source := url src; target := n |} (links_set st))
            <= length (links_set st) + 1)%nat as Hadd.
    { unfold set_add. destruct (has _ _ _); [lia|]. rewrite length_app. simpl. lia. }
    destruct (bool_decide _); simpl; rewrite ?length_app; simpl; lia. }
  lia.
Qed.

Lemma addLinks_sized st e :
  sized L st -> sized L (addLinks st (fetchEntry e)).
Proof.
  intros (Hq & He & Hl). unfold fetchEntry.
  destruct (getPageInfo (url e)) as [info|] eqn:Hp; [|done].
  pose proof (getPageInfo_links_length _ _ _ _ _ Hp) as Hlen.
  unfold addLinks.
  destruct (below (depth e) k).
  - destruct (addLink_fold_growth e (links info) st) as (H1 & H2 & H3).
    destruct (addLink_fold_frame normalize e (links info) st) as (_ & Hpc & _).
    unfold sized. simpl. rewrite Hpc. split_and!; nia.
  - unfold sized. simpl. split_and!; nia.
Qed.

Lemma sized_iteration st : sized L st -> sized L (iteration st).1.
Proof.
  intros (Hq & He & Hl). unfold iteration.
  destruct (fillBatch [] (queue st) (urlCache st)) as [[b q'] c'] eqn:Hf.
  apply fillBatch_pops in Hf as [Hlen _]. simpl in Hlen.
  destruct b as [|e0 b0]; cbn [fst].
  { unfold sized. simpl. split_and!; [lia|done..]. }
  remember (e0 :: b0) as b eqn:Hb. clear Hb.
  match goal with |- sized _ (fold_left _ _ ?s) => assert (sized L s) as Hs end.
  { unfold sized. simpl. split_and!; [lia|done..]. }
  revert Hs. generalize b. clear.
  intros b. match goal with |- sized _ ?s -> _ => generalize s end.
  induction b as [|e b IH]; intros s Hs; simpl; [done|].
  apply IH. by apply addLinks_sized.
Qed.

Abbreviation lineage := (lineage L normalize browse resolveFavicon startUrl k).
Abbreviation edge_of_fetch := (edge_of_fetch L normalize browse resolveFavicon k).

Lemma addLink_lineage src info st href :
  src ∈ dispatched st ->
  getPageInfo (url src) = fulfilled info -> below (depth src) k = true -> href ∈ links info ->
  lineage st -> lineage (addLink src st href).
Proof.
  intros Hsrc Hp Hd Hin (H1 & (pushed & Heq & H2) & H3 & H4). unfold addLink.
  destruct (normalize href) as [n|] eqn:Hn; [|by split_and!; eauto].
  destruct (bool_decide _); [by split_and!; eauto|].
  assert (0 <= depth src) as Hpos.
  { destruct (H1 src Hsrc) as (q & Hq & _ & ->). by apply H3. }
  split_and!; simpl.
  - intros e He. destruct (H1 e He) as (q & Hq & ?). exists q.
    split; [apply elem_of_app; auto|done].
  - exists (pushed ++ [{| url := n; depth := depth src + 1 |}]).
    split; [by rewrite Heq|].
    intros q [Hq| ->%list_elem_of_singleton]%elem_of_app; [by apply H2|].
    exists src. split_and!; [done| |done].
    exists info, href. by simpl.
  - intros q [Hq| ->%list_elem_of_singleton]%elem_of_app; [by apply H3|]. simpl. lia.
  - intros q [Hq| ->%list_elem_of_singleton]%elem_of_app; apply elem_of_app; auto.
    right. by apply list_elem_of_singleton.
Qed.

Lemma addLinks_fold_lineage b : forall st,
  (forall e, e ∈ b -> e ∈ dispatched st) ->
  lineage st -> lineage (fold_left addLinks (fetchBatch b) st).
Proof.
  induction b as [|e b IH]; intros st Hb Hst; simpl; [done|].
  assert (e ∈ dispatched st) as He by (apply Hb, elem_of_cons; auto).
  assert (lineage (addLinks st (fetchEntry e)) /\
          dispatched (addLinks st (fetchEntry e)) = dispatched st) as [Hst' Hdisp].
  { split; [|by destruct (addLinks_frame normalize k st (fetchEntry e)) as (_ & _ & ->)].
    unfold fetchEntry. destruct (getPageInfo (url e)) as [info|] eqn:Hp; [|done].
    unfold addLinks.
    assert (lineage (if below (depth e) k then fold_left (addLink e) (links info) st else st)
            /\ dispatched (if below (depth e) k
                           then fold_left (addLink e) (links info) st else st)
               = dispatched st) as [(H1 & H2 & H3 & H4) Hd].
    { destruct (below (depth e) k) eqn:Hlt; [|done].
      apply (fold_left_preserves
               (fun s => lineage s /\ dispatched s = dispatched st)); [|done].
      intros s href Hin [Hs Hds]. split.
      - eapply addLink_lineage; eauto. by rewrite Hds.
      - by destruct (addLink_frame normalize e s href) as (_ & _ & _ & ->). }
    by split_and!. }
  apply IH; [|done]. intros e' He'. rewrite Hdisp. apply Hb, elem_of_cons; auto.
Qed.

Lemma lineage_iteration st : lineage st -> lineage (iteration st).1.
Proof.
  intros (H1 & H2 & H3 & H4). unfold iteration.
  destruct (fillBatch [] (queue st) (urlCache st)) as [[b q'] c'] eqn:Hf.
  assert ((forall x, x ∈ q' -> x ∈ enqueued st) /\
          (forall e, e ∈ b ->
                     exists q, q ∈ enqueued st /\ normalize (url q) = Some (url e) /\
                               depth e = depth q)) as [Hq' Hb].
  { eapply (fillBatch_rule L normalize startUrl k
              (fun b1 q1 _ =>
                 (forall x, x ∈ q1 -> x ∈ enqueued st) /\
                 (forall e, e ∈ b1 ->
                            exists q, q ∈ enqueued st /\
                                      normalize (url q) = Some (url e) /\
                                      depth e = depth q))); [| | |exact Hf].
    - intros b1 next q1 _ [G1 G2] _ _. split; [|done].
      intros x Hx. apply G1, elem_of_cons; auto.
    - intros b1 next q1 _ n [G1 G2] _ _ Hn _. split.
      + intros x Hx. apply G1, elem_of_cons; auto.
      + intros e [He| ->%list_elem_of_singleton]%elem_of_app; [by apply G2|].
        exists next. split; [apply G1, elem_of_cons; auto|done].
    - split; [done|]. intros e He. by apply elem_of_nil in He. }
  destruct b as [|e0 b0]; cbn [fst].
  { by split_and!. }
  remember (e0 :: b0) as b eqn:Hbeq. clear Hbeq.
  apply addLinks_fold_lineage; simpl.
  - intros e He. apply elem_of_app; auto.
  - split_and!; simpl.
    + intros e [He|He]%elem_of_app; auto.
    + destruct H2 as (pushed & Heq & H2). exists pushed. split; [done|].
      intros q Hq. destruct (H2 q Hq) as (p & Hp & ?). exists p.
      split; [apply elem_of_app; auto|done].
    + done.
    + done.
Qed.

Lemma lineage_initial cache : lineage (initial startUrl cache).
Proof.
  split_and!; simpl.
  - intros e He. by apply elem_of_nil in He.
  - exists []. split; [done|]. intros q Hq. by apply elem_of_nil in Hq.
  - intros q ->%list_elem_of_singleton. simpl. lia.
  - done.
Qed.

Section Normal.

Hypothesis normalize_idem : forall s t, normalize s = Some t -> normalize t = Some t.
Hypothesis seed_normal : normalize startUrl = Some startUrl.

Lemma enqueued_normal_iteration st :
  enqueued_normal normalize st -> enqueued_normal normalize (iteration st).1.
Proof.
  intros Hst. unfold iteration.
  destruct (fillBatch [] (queue st) (urlCache st)) as [[b q'] c'].
  destruct b as [|e0 b0]; cbn [fst]; [done|].
  apply (fold_left_preserves (enqueued_normal normalize)); [|done].
  intros s r _ Hs. destruct r as [[e info]|]; [|done].
  unfold addLinks.
  assert (enqueued_normal normalize
            (if below (depth e) k then fold_left (addLink e) (links info) s else s)) as H; [|done].
  destruct (below (depth e) k); [|done].
  apply (fold_left_preserves (enqueued_normal normalize)); [|done].
  intros s' href _ Hs'. unfold addLink.
  destruct (normalize href) as [n|] eqn:Hn; [|done].
  destruct (bool_decide _); [done|].
  intros q [Hq| ->%list_elem_of_singleton]%elem_of_app; [by apply Hs'|].
  simpl. by eapply normalize_idem.
Qed.

Lemma enqueued_normal_initial cache : enqueued_normal normalize (initial startUrl cache).
Proof. intros q ->%list_elem_of_singleton. done. Qed.

End Normal.

End Graph.

Section MoreClaims.

Variable L : Limits.
Variable normalize : string -> option string.
Variable browse : string -> browser_run.
Variable resolveFavicon : string -> string -> option string.

Abbreviation run := (run L normalize browse resolveFavicon).
Abbreviation api_crawl := (api_crawl L normalize browse resolveFavicon).
Abbreviation getPageInfo := (getPageInfo L browse resolveFavicon).

Lemma run_distinct faulty startUrl k fuel cache o :
  run faulty startUrl k fuel cache = Some o -> distinct (final o).
Proof.
  apply crawlLoop_rule.
  - intros st Hst _. by apply distinct_iteration.
  - split; simpl; apply NoDup_nil_2.
Qed.

Lemma run_sized faulty startUrl k fuel cache o :
  run faulty startUrl k fuel cache = Some o -> sized L (final o).
Proof.
  apply crawlLoop_rule.
  - intros st Hst _. by apply sized_iteration.
  - unfold sized. simpl. lia.
Qed.

Lemma run_lineage faulty startUrl k fuel cache o :
  run faulty startUrl k fuel cache = Some o ->
  lineage L normalize browse resolveFavicon startUrl k (final o).
Proof.
  apply crawlLoop_rule.
  - intros st Hst _. by apply lineage_iteration.
  - apply lineage_initial.
Qed.

Lemma run_enqueued_normal faulty startUrl k fuel cache o :
  (forall s t, normalize s = Some t -> normalize t = Some t) ->
  normalize startUrl = Some startUrl ->
  run faulty startUrl k fuel cache = Some o -> enqueued_normal normalize (final o).
Proof.
  intros Hidem Hseed. apply crawlLoop_rule.
  - intros st Hst _. by eapply enqueued_normal_iteration.
  - by apply enqueued_normal_initial.
Qed.

Lemma node_ids_are_keys (ns : list (string * node)) :
  (forall kv, kv ∈ ns -> id kv.2 = kv.1) -> map id (map snd ns) = fst <$> ns.
Proof.
  induction ns as [|[key v] ns IH]; intros Hid; simpl; [done|].
  pose proof (Hid (key, v)) as Hkey. simpl in Hkey.
  rewrite Hkey by (apply elem_of_cons; auto). f_equal.
  apply IH. intros kv Hkv. apply Hid, elem_of_cons; auto.
Qed.

Lemma recorded_node_ids startUrl k cache st :
  recorded L normalize browse resolveFavicon startUrl k cache st ->
  forall kv, kv ∈ nodes st -> id kv.2 = kv.1.
Proof.
  intros (Hnodes & _) kv Hkv.
  by apply Hnodes in Hkv as (e & _ & info & _ & ->).
Qed.

(** X7. In the graph a crawl returns, no two nodes have the same id and no link
    comes twice. *)
Theorem returned_graph_has_no_repetition faulty startUrl k fuel cache o :
  run faulty startUrl k fuel cache = Some o ->
  NoDup (map id (graph_nodes (buildGraph o))) /\
  NoDup (graph_links (buildGraph o)).
Proof.
  intros Hrun.
  pose proof (run_recorded _ _ _ _ _ _ _ _ _ _ Hrun) as Hrec.
  apply run_distinct in Hrun as [Hn Hl].
  destruct o as [st|st]; simpl in *.
  - split.
    + rewrite node_ids_are_keys; [done|]. by eapply recorded_node_ids.
    + by apply NoDup_filter.
  - split; apply NoDup_nil_2.
Qed.

(** X8. Over a whole crawl at most 1 + LINKS_PER_PAGE * (TOTAL_NODES +
    CONCURRENT_FETCHES - 1) entries are put on the frontier (1081 with the
    constants of the program), the queue is never longer than that, and at
    most LINKS_PER_PAGE * (TOTAL_NODES + CONCURRENT_FETCHES - 1) links are
    recorded or returned. *)
Theorem frontier_and_links_bounded faulty startUrl k fuel cache o :
  run faulty startUrl k fuel cache = Some o ->
  (length (queue (final o)) <= length (enqueued (final o)))%nat /\
  (length (enqueued (final o))
   <= 1 + LINKS_PER_PAGE L * (TOTAL_NODES L + CONCURRENT_FETCHES L - 1))%nat /\
  (length (links_set (final o))
   <= LINKS_PER_PAGE L * (TOTAL_NODES L + CONCURRENT_FETCHES L - 1))%nat /\
  (length (graph_links (buildGraph o))
   <= LINKS_PER_PAGE L * (TOTAL_NODES L + CONCURRENT_FETCHES L - 1))%nat.
Proof.
  intros Hrun.
  pose proof (run_within_budget _ _ _ _ _ _ _ _ _ _ Hrun) as [Hp _].
  apply run_sized in Hrun as (Hq & He & Hl).
  assert (length (graph_links (buildGraph o)) <= length (links_set (final o)))%nat.
  { destruct o as [st|st]; simpl; [apply length_filter|lia]. }
  split_and!; [done|nia..].
Qed.

(** X9. Every fulfilled fetch has a node of its own: the number of nodes
    accumulated is the processed count, and so is the number of nodes of the
    graph of a crawl that completes. *)
Theorem one_node_per_processed_result
        faulty u reset startUrl k fuel cache cache' o :
  (forall s t, normalize s = Some t -> normalize t = Some t) ->
  session normalize u reset cache = Some (startUrl, cache') ->
  run faulty startUrl k fuel cache' = Some o ->
  length (nodes (final o)) = processedCount (final o) /\
  (o = Completed (final o) ->
   length (graph_nodes (buildGraph o)) = processedCount (final o)).
Proof.
  intros Hidem [Hu _]%session_inv Hrun.
  pose proof (run_recorded _ _ _ _ _ _ _ _ _ _ Hrun) as (Hnodes & _).
  pose proof (run_counted _ _ _ _ _ _ _ _ _ _ Hrun) as Hcount.
  pose proof (run_distinct _ _ _ _ _ _ Hrun) as [Hkeys _].
  eapply run_once in Hrun as (Hnd & _); eauto.
  assert (length (nodes (final o)) = processedCount (final o)) as Hlen.
  { rewrite Hcount.
    rewrite <- (length_fmap fst (nodes (final o))).
    rewrite <- (length_fmap url (filter (settles L browse resolveFavicon) (dispatched (final o)))).
    apply Permutation_length, NoDup_Permutation; [done| |].
    - eapply sublist_NoDup; [exact Hnd|]. apply fmap_sublist, sublist_filter.
    - intros key. rewrite !list_elem_of_fmap. split.
      + intros ([key' v] & -> & Hin). simpl.
        apply Hnodes in Hin as (e & He & info & Hp & [= -> ->]).
        exists e. split; [done|]. apply list_elem_of_filter. split; [|done].
        unfold settles. by rewrite Hp.
      + intros (e & -> & [Hs He]%list_elem_of_filter).
        unfold settles in Hs.
        destruct (getPageInfo (url e)) as [info|] eqn:Hp; [|done].
        exists (url e, nodeOf (url e) info). split; [done|].
        apply Hnodes. exists e. split; [done|]. by exists info. }
  split; [done|]. intros ->. simpl. by rewrite length_map.
Qed.

Lemma path_weaken ls ls' n u v :
  (forall l, l ∈ ls -> l ∈ ls') -> path ls n u v -> path ls' n u v.
Proof. intros Hsub. induction 1; econstructor; eauto. Qed.

(** X10. Every node of the graph a crawl returns is the node of a page the
    crawl fetched, and is reached from the seed along links of that graph
    in as many links as the depth at which the page was fetched, a depth
    that is not negative and does not exceed k. *)
Theorem nodes_reachable_within_k_hops
        faulty u reset startUrl k fuel cache cache' o :
  (forall s t, normalize s = Some t -> normalize t = Some t) ->
  session normalize u reset cache = Some (startUrl, cache') ->
  run faulty startUrl k fuel cache' = Some o ->
  forall n, n ∈ graph_nodes (buildGraph o) ->
            exists e,
              e ∈ dispatched (final o) /\ url e = id n /\
              0 <= depth e /\ exceeds (depth e) k = false /\
              path (graph_links (buildGraph o)) (Z.to_nat (depth e)) startUrl (id n).
Proof.
  intros Hidem [Hu _]%session_inv Hrun n Hn.
  assert (normalize startUrl = Some startUrl) as Hseed by eauto.
  pose proof (run_recorded _ _ _ _ _ _ _ _ _ _ Hrun) as (Hnodes & Hlinks & _ & Hdepth & _).
  pose proof (run_lineage _ _ _ _ _ _ Hrun) as (H1 & (pushed & Heq & H2) & H3 & _).
  pose proof (run_enqueued_normal _ _ _ _ _ _ Hidem Hseed Hrun) as Hnormal.
  destruct o as [st|st]; simpl in *; [|by apply elem_of_nil in Hn].
  (* a fetched entry is the frontier entry it was taken from *)
  assert (forall e, e ∈ dispatched st -> e ∈ enqueued st) as Hfrom.
  { intros e He. destruct (H1 e He) as (q & Hq & Hnq & Hdq).
    rewrite (Hnormal q Hq) in Hnq. injection Hnq as Hurl.
    destruct e as [eu ed], q as [qu qd]. simpl in *. by subst. }
  assert (forall key, (exists e info, e ∈ dispatched st /\ url e = key /\
                                      getPageInfo key = fulfilled info) ->
                      map_has key (nodes st) = true) as Hhas.
  { intros key (e & info & He & <- & Hp). apply map_has_true.
    exists (nodeOf (url e) info). apply Hnodes. exists e. split; [done|]. by exists info. }
  assert (forall m e info,
             Z.to_nat (depth e) = m -> e ∈ dispatched st ->
             getPageInfo (url e) = fulfilled info ->
             path (filter (fun l => map_has (source l) (nodes st) = true
                                    ∧ map_has (target l) (nodes st) = true)
                          (links_set st))
                  m startUrl (url e)) as Hpath.
  { induction m as [|m IH]; intros e info Hm He Hp.
    - pose proof (Hfrom e He) as Hin. rewrite Heq in Hin.
      apply elem_of_cons in Hin as [->|Hin]; [constructor|].
      destruct (H2 e Hin) as (p & Hpd & _ & Hd).
      pose proof (H3 p (Hfrom p Hpd)). lia.
    - pose proof (Hfrom e He) as Hin. rewrite Heq in Hin.
      apply elem_of_cons in Hin as [->|Hin]; [simpl in Hm; lia|].
      destruct (H2 e Hin) as (p & Hpd & Hedge & Hd).
      pose proof (H3 p (Hfrom p Hpd)) as Hpos.
      pose proof Hedge as (pinfo & href & Hpp & _).
      apply (path_step _ m startUrl (url p) (url e)).
      + apply (IH p pinfo); [lia|done..].
      + apply list_elem_of_filter. split.
        * split; simpl; apply Hhas; eauto.
        * apply Hlinks. eauto. }
  apply list_elem_of_In, in_map_iff in Hn as ([key v] & <- & Hkv).
  apply list_elem_of_In, Hnodes in Hkv as (e & He & info & Hp & [= -> ->]).
  exists e. split_and!; [done|done|by apply H3, Hfrom|by apply Hdepth|].
  simpl. by eapply Hpath.
Qed.

Lemma getPageInfo_fails u :
  browse u = BrowserFails -> getPageInfo u = rejected.
Proof. intros H. unfold getPageInfo. by rewrite H. Qed.

(** X11. A url whose fetch fails outside the try of getPageInfo (the browser
    does not start or does not close) has no node in the graph and no link
    leaves it or reaches it there; it is not counted in processedCount, but
    it stays in the cache. *)
Theorem rejected_fetch_gives_no_node faulty startUrl k fuel cache o e :
  run faulty startUrl k fuel cache = Some o ->
  e ∈ dispatched (final o) ->
  browse (url e) = BrowserFails ->
  (forall n, n ∈ graph_nodes (buildGraph o) -> id n <> url e) /\
  (forall l, l ∈ graph_links (buildGraph o) ->
             source l <> url e /\ target l <> url e) /\
  (forall l, l ∈ links_set (final o) -> source l <> url e) /\
  ~ settles L browse resolveFavicon e /\
  processedCount (final o)
  = length (filter (settles L browse resolveFavicon) (dispatched (final o))) /\
  url e ∈ urlCache (final o).
Proof.
  intros Hrun He Hfails.
  pose proof (getPageInfo_fails _ Hfails) as Hrej.
  pose proof (run_recorded _ _ _ _ _ _ _ _ _ _ Hrun) as (Hnodes & Hlinks & Hcache & _).
  pose proof (run_counted _ _ _ _ _ _ _ _ _ _ Hrun) as Hcount.
  assert (forall v, (url e, v) ∉ nodes (final o)) as Hnokey.
  { intros v (e' & _ & info & Hp & [= Hurl _])%Hnodes. congruence. }
  assert (map_has (url e) (nodes (final o)) = false) as Hhas.
  { apply not_true_iff_false. intros [v Hv]%map_has_true. by eapply Hnokey. }
  split_and!.
  - destruct o as [st|st]; simpl in *; [|intros n Hn; by apply elem_of_nil in Hn].
    intros n ([key v] & <- & Hkv)%list_elem_of_In%in_map_iff Hid.
    apply list_elem_of_In in Hkv. pose proof Hkv as Hkv'.
    apply Hnodes in Hkv' as (e' & _ & info & _ & [= -> ->]).
    simpl in Hid. rewrite Hid in Hkv. by eapply Hnokey.
  - destruct o as [st|st]; simpl in *; [|intros n Hn; by apply elem_of_nil in Hn].
    intros l [[Hs Ht] _]%list_elem_of_filter. split; intros Heq; congruence.
  - intros l (e' & _ & info & href & Hp & _ & _ & _ & Hsrc)%Hlinks Heq. congruence.
  - unfold settles. by rewrite Hrej.
  - exact Hcount.
  - rewrite Hcache. apply elem_of_union_l, elem_of_list_to_set, list_elem_of_fmap. eauto.
Qed.

(** X12. With k = 0 nothing but the seed is ever put on the frontier, no link is
    recorded, and the graph has one node at most and no link. *)
Theorem depth_zero_keeps_to_the_seed faulty startUrl fuel cache o :
  run faulty startUrl (int 0) fuel cache = Some o ->
  enqueued (final o) = [seed startUrl] /\
  links_set (final o) = [] /\
  graph_links (buildGraph o) = [] /\
  (length (graph_nodes (buildGraph o)) <= 1)%nat /\
  (forall e, e ∈ dispatched (final o) ->
             depth e = 0 /\ normalize startUrl = Some (url e)).
Proof.
  intros Hrun.
  pose proof (run_recorded _ _ _ _ _ _ _ _ _ _ Hrun) as (Hnodes & Hlinks & _ & Hdepth & _).
  pose proof (run_lineage _ _ _ _ _ _ Hrun) as (H1 & (pushed & Heq & H2) & H3 & _).
  pose proof (run_distinct _ _ _ _ _ _ Hrun) as [Hkeys _].
  assert (forall e, e ∈ dispatched (final o) -> 0 <= depth e) as Hpos.
  { intros e He. destruct (H1 e He) as (q & Hq & _ & ->). by apply H3. }
  assert (pushed = []) as ->.
  { destruct pushed as [|q pushed]; [done|].
    destruct (H2 q) as (p & Hp & (info & href & _ & Hlt%below_int & _) & _);
      [apply elem_of_cons; auto|].
    specialize (Hpos p Hp). lia. }
  assert (links_set (final o) = []) as Hnil.
  { destruct (links_set (final o)) as [|l ls] eqn:Hl; [done|].
    destruct (Hlinks l) as [Hex _].
    destruct Hex as (p & Hp & info & href & _ & Hlt%below_int & _);
      [apply elem_of_cons; auto|].
    specialize (Hpos p Hp). lia. }
  assert (forall e, e ∈ dispatched (final o) ->
                    depth e = 0 /\ normalize startUrl = Some (url e)) as Hseed.
  { intros e He. destruct (H1 e He) as (q & Hq & Hn & Hd).
    rewrite Heq in Hq. apply list_elem_of_singleton in Hq. subst q. by simpl in *. }
  split_and!; [done|done| | |done].
  - destruct o as [st|st]; simpl in *; [|done]. by rewrite Hnil.
  - destruct o as [st|st]; simpl in *; [|lia]. rewrite length_map.
    rewrite <- (length_fmap fst).
    assert (forall key, key ∈ fst <$> nodes st -> normalize startUrl = Some key) as Hall.
    { intros key ([key' v] & -> & Hkv)%list_elem_of_fmap.
      apply Hnodes in Hkv as (e & He & info & _ & [= -> ->]). by apply Hseed. }
    remember (fst <$> nodes st) as keys eqn:Hks. clear Hks.
    destruct keys as [|k1 [|k2 ks]]; simpl; [lia..|].
    exfalso.
    assert (k1 = k2) as ->.
    { pose proof (Hall k1 ltac:(apply elem_of_cons; auto)).
      pose proof (Hall k2 ltac:(apply elem_of_cons; right; apply elem_of_cons; auto)).
      congruence. }
    apply NoDup_cons in Hkeys as [Hnotin _]. apply Hnotin, elem_of_cons. auto.
Qed.

(** X13. What a request does to the cache: afterwards it holds the urls the
    crawl fetched, and of what it held before (nothing after a reset)
    everything but the seed; and when the crawl was not cut short by a fault
    it holds nothing else. (A fault can leave the urls of a batch that was
    filled and never fetched.) *)
Theorem cache_after_request faulty u reset startUrl k fuel cache cache' o :
  session normalize u reset cache = Some (startUrl, cache') ->
  run faulty startUrl k fuel cache' = Some o ->
  (forall x,
      (exists e, e ∈ dispatched (final o) /\ url e = x) \/
      (x ∈ (if reset then ∅ else cache : gset string) /\ x <> startUrl) ->
      x ∈ urlCache (final o)) /\
  (o = Completed (final o) ->
   forall x,
     x ∈ urlCache (final o) ->
     (exists e, e ∈ dispatched (final o) /\ url e = x) \/
     (x ∈ (if reset then ∅ else cache : gset string) /\ x <> startUrl)).
Proof.
  intros [_ ->]%session_inv Hrun.
  pose proof (run_recorded _ _ _ _ _ _ _ _ _ _ Hrun) as (_ & _ & -> & _).
  split; [|intros _]; intros x;
    rewrite elem_of_union, elem_of_list_to_set, list_elem_of_fmap,
      elem_of_difference, elem_of_singleton;
    naive_solver.
Qed.

(** X14. Every request is answered: with status 500 exactly when the url does
    not parse, the cache then untouched but for the reset; with a graph
    otherwise; and more fuel does not change the answer. *)
Theorem api_crawl_always_responds faulty u k reset cache :
  exists fuel r c,
    api_crawl faulty fuel u k reset cache = Some (r, c) /\
    (r = Status500 <-> normalize u = None) /\
    (normalize u = None -> c = if reset then ∅ else cache) /\
    (forall fuel', (fuel <= fuel')%nat ->
                   api_crawl faulty fuel' u k reset cache = Some (r, c)).
Proof.
  unfold api_crawl, crawlKHops, session.
  destruct (normalize u) as [startUrl|] eqn:Hu.
  - destruct (crawlLoop_terminates L normalize browse resolveFavicon faulty startUrl k
                (initial startUrl ((if reset then ∅ else cache) ∖ {[startUrl]})) 0%nat)
      as (fuel & o & Hrun).
    exists fuel, (Json (buildGraph o)), (urlCache (final o)).
    unfold run. rewrite Hrun. split_and!; [done| |done|].
    + split; intros [=].
    + intros fuel' Hle.
      by rewrite (crawlLoop_fuel_mono _ _ _ _ _ _ _ _ _ _ _ _ Hle Hrun).
  - exists 0%nat, Status500, (if reset then ∅ else cache). by split_and!.
Qed.

End MoreClaims.

(** * The client: merging a response into the graph shown *)

Lemma map_set_fresh key v m :
  map_has key m = false -> map_set key v m = m ++ [(key, v)].
Proof.
  induction m as [|[k' v'] m IH]; simpl; [done|].
  destruct (String.eqb k' key); simpl; [done|]. intros H. by rewrite IH.
Qed.

Lemma map_has_keys key m : map_has key m = true <-> key ∈ fst <$> m.
Proof.
  rewrite map_has_true, list_elem_of_fmap. split.
  - intros [v Hv]. by exists (key, v).
  - intros ([k' v] & -> & Hin). by exists v.
Qed.

Lemma map_get_Some key m v : map_get key m = Some v -> (key, v) ∈ m.
Proof.
  induction m as [|[k' v'] m IH]; simpl; [done|].
  destruct (String.eqb_spec k' key) as [->|Hne].
  - intros [= ->]. apply elem_of_cons; auto.
  - intros H. apply elem_of_cons; auto.
Qed.

Lemma map_get_has key m : map_has key m = true -> is_Some (map_get key m).
Proof.
  induction m as [|[k' v'] m IH]; simpl; [done|].
  destruct (String.eqb k' key); simpl; eauto.
Qed.

Lemma keyed_snoc m n :
  keyed m -> map_has (id n) m = false -> keyed (m ++ [(id n, n)]).
Proof.
  intros [Hnd Hk] Hfresh. split.
  - rewrite fmap_app. apply NoDup_app. split_and!; [done| |apply NoDup_singleton].
    intros key Hkey ->%list_elem_of_singleton.
    apply map_has_keys in Hkey. simpl in Hkey. congruence.
  - intros kv [Hin| ->%list_elem_of_singleton]%elem_of_app; [by apply Hk|done].
Qed.

Lemma addNewNode_step m n :
  addNewNode m n = if map_has (id n) m then m else m ++ [(id n, n)].
Proof.
  unfold addNewNode. destruct (map_has (id n) m) eqn:H; [done|]. by apply map_set_fresh.
Qed.

(** The nodes of a response are added behind the map, those with a known
    id not at all. *)
Lemma addNewNode_fold ns : forall m,
  keyed m ->
  exists added,
    fold_left addNewNode ns m = m ++ added /\
    keyed (m ++ added) /\
    (forall kv, kv ∈ added -> kv.2 ∈ ns /\ map_has kv.1 m = false) /\
    (forall n, n ∈ ns -> map_has (id n) (m ++ added) = true).
Proof.
  induction ns as [|n ns IH]; intros m Hm; simpl.
  - exists []. rewrite app_nil_r. split_and!; [done..| |].
    + intros kv H. by apply elem_of_nil in H.
    + intros n H. by apply elem_of_nil in H.
  - rewrite addNewNode_step. destruct (map_has (id n) m) eqn:Hhas.
    + destruct (IH m Hm) as (added & Heq & Hk & Hadd & Hall).
      exists added. split_and!; [done..| |].
      * intros kv Hkv. destruct (Hadd kv Hkv). split; [apply elem_of_cons; auto|done].
      * intros n' [->|Hn']%elem_of_cons; [|by apply Hall].
        apply map_has_keys. rewrite fmap_app. apply elem_of_app. left.
        by apply map_has_keys.
    + destruct (IH _ (keyed_snoc m n Hm Hhas)) as (added & Heq & Hk & Hadd & Hall).
      exists ((id n, n) :: added). rewrite <- app_assoc in Heq, Hk, Hall. simpl in *.
      split_and!; [done..| |].
      * intros kv [->|Hkv]%elem_of_cons; [split; [apply elem_of_cons; auto|done]|].
        destruct (Hadd kv Hkv) as [H1 H2]. split; [apply elem_of_cons; auto|].
        apply not_true_iff_false. intros Hin%map_has_keys.
        apply not_true_iff_false in H2. apply H2, map_has_keys.
        rewrite fmap_app. apply elem_of_app. auto.
      * intros n' [->|Hn']%elem_of_cons; [|by apply Hall].
        apply map_has_keys. rewrite fmap_app. simpl. apply elem_of_app. right.
        apply elem_of_cons. auto.
Qed.

Lemma nodeMap_from ns : forall m,
  keyed m ->
  keyed (fold_left (fun m n => map_set (id n) n m) ns m) /\
  (NoDup (map id ns) -> (forall n, n ∈ ns -> map_has (id n) m = false) ->
   fold_left (fun m n => map_set (id n) n m) ns m = m ++ map (fun n => (id n, n)) ns).
Proof.
  induction ns as [|n ns IH]; intros m Hm; simpl.
  - split; [done|]. intros _ _. by rewrite app_nil_r.
  - assert (keyed (map_set (id n) n m)) as Hm'.
    { destruct Hm as [Hnd Hk]. split; [by apply map_set_keys|].
      intros kv [Hin| ->]%map_set_elem_of; [by apply Hk|done]. }
    destruct (IH _ Hm') as [H1 H2]. split; [done|].
    intros [Hnotin Hnd]%NoDup_cons Hfresh.
    rewrite map_set_fresh in H2 |- * by (apply Hfresh, elem_of_cons; auto).
    rewrite H2; [by rewrite <- app_assoc|done|].
    intros n' Hn'. apply not_true_iff_false. intros Hin%map_has_keys.
    rewrite fmap_app in Hin. apply elem_of_app in Hin as [Hin|Hin].
    + apply map_has_keys in Hin. rewrite Hfresh in Hin; [done|apply elem_of_cons; auto].
    + simpl in Hin. apply list_elem_of_singleton in Hin.
      apply Hnotin. rewrite <- Hin. apply list_elem_of_In, in_map, list_elem_of_In. done.
Qed.

Lemma nodeMap_keyed ns : keyed (nodeMap ns).
Proof. apply nodeMap_from. split; [apply NoDup_nil_2|]. intros kv H. by apply elem_of_nil in H. Qed.

Lemma nodeMap_distinct ns :
  NoDup (map id ns) -> nodeMap ns = map (fun n => (id n, n)) ns.
Proof.
  intros Hnd. unfold nodeMap.
  destruct (nodeMap_from ns []) as [_ H].
  { split; [apply NoDup_nil_2|]. intros kv Hkv. by apply elem_of_nil in Hkv. }
  by rewrite H.
Qed.

Lemma keyed_ids m : keyed m -> map id (map snd m) = fst <$> m.
Proof.
  intros [_ Hk]. induction m as [|[key v] m IH]; simpl; [done|].
  pose proof (Hk (key, v)) as Hkey. simpl in Hkey.
  rewrite <- Hkey by (apply elem_of_cons; auto). f_equal.
  apply IH. intros kv Hkv. apply Hk, elem_of_cons; auto.
Qed.

Lemma keyed_values m : keyed m -> map (fun n => (id n, n)) (map snd m) = m.
Proof.
  intros [_ Hk]. induction m as [|[key v] m IH]; simpl; [done|].
  pose proof (Hk (key, v)) as Hkey. simpl in Hkey.
  rewrite <- Hkey by (apply elem_of_cons; auto). f_equal.
  apply IH. intros kv Hkv. apply Hk, elem_of_cons; auto.
Qed.

(** The map of the nodes after a response: the nodes shown before, then
    the new ones. *)
Lemma merged_nodes g data :
  keyed (fold_left addNewNode (graph_nodes data) (nodeMap (cnodes g))) /\
  (NoDup (map id (cnodes g)) ->
   exists added,
     map snd (fold_left addNewNode (graph_nodes data) (nodeMap (cnodes g)))
     = cnodes g ++ added /\
     forall n, n ∈ added -> n ∈ graph_nodes data /\ id n ∉ map id (cnodes g)).
Proof.
  destruct (addNewNode_fold (graph_nodes data) (nodeMap (cnodes g)) (nodeMap_keyed _))
    as (added & Heq & Hk & Hadd & _).
  rewrite Heq. split; [done|]. intros Hnd.
  rewrite (nodeMap_distinct _ Hnd) in *.
  exists (map snd added). rewrite map_app, map_map. simpl. rewrite map_id.
  split; [done|].
  intros n ([key v] & <- & Hkv)%list_elem_of_In%in_map_iff. apply list_elem_of_In in Hkv.
  destruct (Hadd _ Hkv) as [H1 H2]. simpl in *. split; [done|].
  assert (key = id v) as ->.
  { destruct Hk as [_ Hk]. apply (Hk (key, v)), elem_of_app. auto. }
  intros Hin. apply not_true_iff_false in H2. apply H2, map_has_keys.
  rewrite <- list_fmap_compose. simpl.
  by apply list_elem_of_In in Hin; apply list_elem_of_In.
Qed.

(** X15. After a response the ids of the nodes shown are pairwise distinct; and
    when they were so before, the nodes shown before stay as they are, in
    front, and the nodes added are nodes of the response whose id was not
    shown yet (the node of a known id is not replaced). *)
Theorem merge_keeps_first_node_of_an_id g data :
  NoDup (map id (cnodes (mergeResponse g data))) /\
  (NoDup (map id (cnodes g)) ->
   exists added,
     cnodes (mergeResponse g data) = cnodes g ++ added /\
     forall n, n ∈ added -> n ∈ graph_nodes data /\ id n ∉ map id (cnodes g)).
Proof.
  destruct (merged_nodes g data) as [Hk Hpre]. unfold mergeResponse. simpl.
  split; [|done]. rewrite keyed_ids by done. by destruct Hk.
Qed.

Lemma candidate_spec m links c :
  keyed m ->
  c ∈ omap (toObjects m) (List.filter (knownEnds m) links) ->
  c.1 ∈ map snd m /\ c.2 ∈ map snd m /\
  id c.1 <> "" /\ id c.2 <> "" /\ ends c ∈ links.
Proof.
  intros [_ Hk] (l & Hl & Hobj)%list_elem_of_omap.
  apply list_elem_of_In, filter_In in Hl as [Hl Hknown].
  apply list_elem_of_In in Hl.
  unfold knownEnds in Hknown. rewrite !andb_true_iff, !negb_true_iff in Hknown.
  destruct Hknown as [[[Hs Ht] _] _].
  apply String.eqb_neq in Hs, Ht.
  unfold toObjects in Hobj.
  destruct (map_get (source l) m) as [s|] eqn:Hgs; [|done].
  destruct (map_get (target l) m) as [t|] eqn:Hgt; [|done].
  injection Hobj as <-. simpl.
  apply map_get_Some in Hgs, Hgt.
  pose proof (Hk _ Hgs) as Hids. pose proof (Hk _ Hgt) as Hidt. simpl in Hids, Hidt.
  split_and!.
  - apply list_elem_of_In, in_map_iff. exists (source l, s). split; [done|].
    by apply list_elem_of_In.
  - apply list_elem_of_In, in_map_iff. exists (target l, t). split; [done|].
    by apply list_elem_of_In.
  - congruence.
  - congruence.
  - unfold ends. simpl. rewrite <- Hids, <- Hidt. by destruct l.
Qed.

Lemma merge_well_formed g data : wellFormed g -> wellFormed (mergeResponse g data).
Proof.
  intros [Hnd Hlinks].
  destruct (merged_nodes g data) as [Hk Hpre].
  destruct (Hpre Hnd) as (added & Heq & _).
  unfold mergeResponse, wellFormed. simpl. split.
  - rewrite keyed_ids by done. by destruct Hk.
  - intros l [Hl|Hl]%elem_of_app.
    + rewrite Heq. destruct (Hlinks l Hl). split; apply elem_of_app; auto.
    + apply list_elem_of_In, filter_In in Hl as [Hl _]. apply list_elem_of_In in Hl.
      apply candidate_spec in Hl as (H1 & H2 & _); done.
Qed.

(** X16. Whatever responses arrive, one after the other, from the empty graph on,
    the graph the client shows has pairwise distinct node ids and every link
    of it joins two of its nodes. *)
Theorem client_graph_always_well_formed (rs : list response) :
  wellFormed (fold_left handleSubmit rs emptyGraph).
Proof.
  apply (fold_left_preserves wellFormed).
  - intros g r _ Hg. destruct r as [data|]; [by apply merge_well_formed|done].
  - split; simpl; [apply NoDup_nil_2|]. intros l Hl. by apply elem_of_nil in Hl.
Qed.

Lemma addNewNode_known ns : forall m,
  (forall n, n ∈ ns -> map_has (id n) m = true) -> fold_left addNewNode ns m = m.
Proof.
  induction ns as [|n ns IH]; intros m Hall; simpl; [done|].
  unfold addNewNode at 2. rewrite Hall by (apply elem_of_cons; auto).
  apply IH. intros n' Hn'. apply Hall, elem_of_cons; auto.
Qed.

Lemma filter_none {A} (f : A -> bool) (l : list A) :
  (forall x, x ∈ l -> f x = false) -> List.filter f l = [].
Proof.
  induction l as [|x l IH]; intros Hall; simpl; [done|].
  rewrite Hall by (apply elem_of_cons; auto). apply IH.
  intros y Hy. apply Hall, elem_of_cons; auto.
Qed.

Lemma linkKey_ids c :
  id c.1 <> "" -> id c.2 <> "" -> linkKey c = (id c.1 ++ "-" ++ id c.2)%string.
Proof.
  intros H1 H2. unfold linkKey, idOr.
  by destruct (String.eqb_spec (id c.1) ""), (String.eqb_spec (id c.2) "").
Qed.

(** X17. A response merged a second time changes nothing: no node and no link
    is added twice. *)
Theorem merge_twice_is_merge_once g data :
  mergeResponse (mergeResponse g data) data = mergeResponse g data.
Proof.
  destruct (merged_nodes g data) as [Hk _].
  destruct (addNewNode_fold (graph_nodes data) (nodeMap (cnodes g)) (nodeMap_keyed _))
    as (added & Heq & _ & _ & Hall).
  unfold mergeResponse at 1.
  set (g1 := mergeResponse g data).
  assert (cnodes g1
          = map snd (fold_left addNewNode (graph_nodes data) (nodeMap (cnodes g)))) as Hn1
      by done.
  set (m1 := fold_left addNewNode (graph_nodes data) (nodeMap (cnodes g))) in *.
  assert (nodeMap (cnodes g1) = m1) as Hmap.
  { rewrite Hn1, nodeMap_distinct.
    - by apply keyed_values.
    - rewrite keyed_ids by done. by destruct Hk. }
  rewrite Hmap.
  assert (fold_left addNewNode (graph_nodes data) m1 = m1) as Hfold.
  { apply addNewNode_known. intros n Hn. rewrite Heq. by apply Hall. }
  rewrite Hfold.
  assert (List.filter (newKey (map linkKey (clinks g1)))
            (omap (toObjects m1) (List.filter (knownEnds m1) (graph_links data))) = [])
    as Hnone.
  { apply filter_none. intros c Hc.
    pose proof (candidate_spec _ _ _ Hk Hc) as (_ & _ & H1 & H2 & _).
    unfold newKey. rewrite negb_false_iff, <- (linkKey_ids c H1 H2).
    apply has_eqb_elem.
    destruct (newKey (map linkKey (clinks g)) c) eqn:Hnew.
    - apply list_elem_of_In, in_map, list_elem_of_In.
      unfold g1, mergeResponse. simpl. apply elem_of_app. right.
      apply list_elem_of_In, filter_In. split; [by apply list_elem_of_In|done].
    - unfold newKey in Hnew. rewrite negb_false_iff, <- (linkKey_ids c H1 H2) in Hnew.
      apply has_eqb_elem in Hnew.
      unfold g1, mergeResponse. simpl. rewrite map_app.
      apply list_elem_of_In, in_or_app. left. by apply list_elem_of_In. }
  rewrite Hnone, app_nil_r. reflexivity.
Qed.

Lemma addNewNode_fresh ns : forall m,
  NoDup (map id ns) -> (forall n, n ∈ ns -> map_has (id n) m = false) ->
  fold_left addNewNode ns m = m ++ map (fun n => (id n, n)) ns.
Proof.
  induction ns as [|n ns IH]; intros m Hnd Hfresh; simpl.
  - by rewrite app_nil_r.
  - apply NoDup_cons in Hnd as [Hnotin Hnd].
    rewrite addNewNode_step, Hfresh by (apply elem_of_cons; auto).
    rewrite IH; [by rewrite <- app_assoc|done|].
    intros n' Hn'. apply not_true_iff_false. intros Hin%map_has_keys.
    rewrite fmap_app in Hin. apply elem_of_app in Hin as [Hin|Hin].
    + apply map_has_keys in Hin. rewrite Hfresh in Hin; [done|apply elem_of_cons; auto].
    + simpl in Hin. apply list_elem_of_singleton in Hin.
      apply Hnotin. rewrite <- Hin. apply list_elem_of_In, in_map, list_elem_of_In. done.
Qed.

Lemma toObjects_ends m l :
  keyed m -> map_has (source l) m = true -> map_has (target l) m = true ->
  exists c, toObjects m l = Some c /\ ends c = l.
Proof.
  intros [_ Hk] [s Hs]%map_get_has [t Ht]%map_get_has.
  unfold toObjects. rewrite Hs, Ht. eexists. split; [done|].
  apply map_get_Some in Hs, Ht.
  pose proof (Hk _ Hs) as Hids. pose proof (Hk _ Ht) as Hidt. simpl in *.
  unfold ends. simpl. rewrite <- Hids, <- Hidt. by destruct l.
Qed.

(** A graph with distinct ids whose links join its nodes and have no empty
    end is shown as it is when it is the first response. *)
Lemma merge_into_empty data :
  NoDup (map id (graph_nodes data)) ->
  (forall l, l ∈ graph_links data ->
             source l <> "" /\ target l <> "" /\
             source l ∈ map id (graph_nodes data) /\
             target l ∈ map id (graph_nodes data)) ->
  cnodes (mergeResponse emptyGraph data) = graph_nodes data /\
  map ends (clinks (mergeResponse emptyGraph data)) = graph_links data.
Proof.
  intros Hnd Hclosed. unfold mergeResponse. simpl.
  change (nodeMap []) with ([] : list (string * node)).
  rewrite addNewNode_fresh by done. simpl.
  set (m := map (fun n => (id n, n)) (graph_nodes data)).
  assert (map snd m = graph_nodes data) as Hsnd.
  { unfold m. rewrite map_map. simpl. apply map_id. }
  assert (fst <$> m = map id (graph_nodes data)) as Hfst.
  { unfold m. by rewrite <- list_fmap_compose. }
  assert (keyed m) as Hk.
  { split; [by rewrite Hfst|].
    intros kv (n & <- & _)%list_elem_of_In%in_map_iff. done. }
  split; [done|].
  revert Hclosed. generalize (graph_links data). intros ls Hclosed.
  induction ls as [|l ls IH]; simpl; [done|].
  destruct (Hclosed l) as (Hs & Ht & Hsn & Htn); [apply elem_of_cons; auto|].
  assert (map_has (source l) m = true) as Hhs by (apply map_has_keys; by rewrite Hfst).
  assert (map_has (target l) m = true) as Hht by (apply map_has_keys; by rewrite Hfst).
  assert (knownEnds m l = true) as ->.
  { unfold knownEnds. rewrite Hhs, Hht.
    by destruct (String.eqb_spec (source l) ""), (String.eqb_spec (target l) ""). }
  simpl. destruct (toObjects_ends m l Hk Hhs Hht) as (c & -> & Hc). simpl.
  rewrite Hc. f_equal. apply IH. intros l' Hl'. apply Hclosed, elem_of_cons; auto.
Qed.

Section EndToEnd.

Variable L : Limits.
Variable normalize : string -> option string.
Variable browse : string -> browser_run.
Variable resolveFavicon : string -> string -> option string.

(** X18. What the client shows after its first request is the graph the crawl
    returned: the same nodes in the same order, and one link between the
    node objects for each link of the response, urls never being empty. *)
Theorem client_shows_the_returned_graph faulty startUrl k fuel cache o :
  (forall s t, normalize s = Some t -> t <> "") ->
  run L normalize browse resolveFavicon faulty startUrl k fuel cache = Some o ->
  cnodes (handleSubmit emptyGraph (Json (buildGraph o))) = graph_nodes (buildGraph o) /\
  map ends (clinks (handleSubmit emptyGraph (Json (buildGraph o))))
  = graph_links (buildGraph o).
Proof.
  intros Hne Hrun. simpl.
  pose proof (run_recorded _ _ _ _ _ _ _ _ _ _ Hrun) as Hrec.
  pose proof (run_lineage _ _ _ _ _ _ _ _ _ _ Hrun) as (H1 & _).
  pose proof (run_distinct _ _ _ _ _ _ _ _ _ _ Hrun) as [Hkeys _].
  pose proof (recorded_node_ids _ _ _ _ _ _ _ _ Hrec) as Hids.
  destruct Hrec as (Hnodes & _).
  apply merge_into_empty.
  - destruct o as [st|st]; simpl in *; [|apply NoDup_nil_2].
    by rewrite node_ids_are_keys.
  - destruct o as [st|st]; simpl in *; [|intros l Hl; by apply elem_of_nil in Hl].
    rewrite node_ids_are_keys by done.
    assert (forall key, map_has key (nodes st) = true -> key <> "" /\ key ∈ fst <$> nodes st)
      as Hkey.
    { intros key [v Hv]%map_has_true. split.
      - pose proof Hv as (e & He & info & _ & [= -> ->])%Hnodes.
        destruct (H1 e He) as (q & _ & Hn & _). by eapply Hne.
      - apply list_elem_of_fmap. by exists (key, v). }
    intros l [[Hs Ht] _]%list_elem_of_filter.
    destruct (Hkey _ Hs), (Hkey _ Ht). done.
Qed.

End EndToEnd.

Section Exhaustive.

Variable L : Limits.
Variable normalize : string -> option string.
Variable browse : string -> browser_run.
Variable resolveFavicon : string -> string -> option string.
Variable startUrl : string.
Variable k : number.

Hypothesis normalize_idem : forall s t, normalize s = Some t -> normalize t = Some t.
Hypothesis seed_normal : normalize startUrl = Some startUrl.

Abbreviation fillBatch := (fillBatch L normalize startUrl k).
Abbreviation iteration := (iteration L normalize browse resolveFavicon startUrl k).
Abbreviation getPageInfo := (getPageInfo L browse resolveFavicon).
Abbreviation fetchBatch := (fetchBatch L browse resolveFavicon).
Abbreviation fetchEntry := (fetchEntry L browse resolveFavicon).
Abbreviation addLink := (addLink normalize).
Abbreviation addLinks := (addLinks normalize k).
Abbreviation links_followed := (links_followed L normalize browse resolveFavicon k).
Abbreviation explored := (explored L normalize browse resolveFavicon k).

Lemma grows_refl st : grows st st.
Proof. split_and!; auto. Qed.

Lemma grows_trans st1 st2 st3 : grows st1 st2 -> grows st2 st3 -> grows st1 st3.
Proof.
  intros (A1 & A2 & A3 & A4) (B1 & B2 & B3 & B4). split_and!; [congruence|auto..|].
  intros q Hq. destruct (B4 q Hq) as [H|H]; [|auto].
  destruct (A4 q H) as [?|?]; auto.
Qed.

Lemma addLink_grows src st href : grows st (addLink src st href).
Proof.
  unfold addLink. destruct (normalize href); [|apply grows_refl].
  destruct (bool_decide _); [split_and!; simpl; auto|].
  split_and!; simpl; [done|intros q Hq; apply elem_of_app; auto..|].
  intros q [?|?]%elem_of_app; [auto|]. right. apply elem_of_app; auto.
Qed.

Lemma addLink_fold_grows src ls : forall st, grows st (fold_left (addLink src) ls st).
Proof.
  induction ls as [|href ls IH]; intros st; simpl; [apply grows_refl|].
  eapply grows_trans; [apply addLink_grows|apply IH].
Qed.

Lemma addLink_fold_follows src ls : forall st href t,
  href ∈ ls -> normalize href = Some t ->
  t ∈ urlCache st \/
  {| url := t; depth := depth src + 1 |} ∈ enqueued (fold_left (addLink src) ls st).
Proof.
  induction ls as [|l ls IH]; intros st href t Hin Hn; simpl.
  - by apply elem_of_nil in Hin.
  - apply elem_of_cons in Hin as [->|Hin].
    + destruct (addLink_fold_grows src ls (addLink src st l)) as (_ & Hmono & _).
      unfold addLink in *. rewrite Hn in *.
      destruct (bool_decide (t ∈ urlCache st)) eqn:Hc.
      * left. by apply bool_decide_eq_true in Hc.
      * right. apply Hmono. simpl. apply elem_of_app. right.
        by apply list_elem_of_singleton.
    + destruct (IH (addLink src st l) href t Hin Hn) as [Hc|He]; [|auto].
      left. by destruct (addLink_frame normalize src st l) as (_ & _ & <- & _).
Qed.

Lemma addLinks_grows st r : grows st (addLinks st r).
Proof.
  destruct r as [[e info]|]; [|apply grows_refl]. unfold addLinks.
  assert (grows st (if below (depth e) k then fold_left (addLink e) (links info) st else st))
    as (H1 & H2 & H3 & H4).
  { destruct (below (depth e) k); [apply addLink_fold_grows|apply grows_refl]. }
  by split_and!.
Qed.

Lemma links_followed_grows done st st' :
  grows st st' -> links_followed done st -> links_followed done st'.
Proof.
  intros (Hc & He & _) Hf e info href t H1 H2 H3 H4 H5.
  rewrite Hc. destruct (Hf e info href t H1 H2 H3 H4 H5); auto.
Qed.

Lemma addLinks_fold_follows b : forall st done,
  links_followed done st ->
  grows st (fold_left addLinks (fetchBatch b) st) /\
  links_followed (done ++ b) (fold_left addLinks (fetchBatch b) st).
Proof.
  induction b as [|e b IH]; intros st done Hdone; simpl.
  - rewrite app_nil_r. split; [apply grows_refl|done].
  - pose proof (addLinks_grows st (fetchEntry e)) as Hg.
    assert (links_followed (done ++ [e]) (addLinks st (fetchEntry e))) as Hstep.
    { intros e' info href t [Hin| ->%list_elem_of_singleton]%elem_of_app Hp Hd Hh Hn.
      - eapply links_followed_grows; eauto.
      - unfold fetchEntry. rewrite Hp. unfold addLinks. simpl.
        rewrite Hd.
        destruct (addLink_fold_follows e (links info) st href t Hh Hn) as [?|?]; [|auto].
        left. by destruct (addLink_fold_frame normalize e (links info) st)
          as (_ & _ & -> & _). }
    destruct (IH _ _ Hstep) as [Hg' Hf]. split.
    + eapply grows_trans; eauto.
    + by rewrite <- app_assoc in Hf.
Qed.

Lemma explored_iteration st :
  enqueued_normal normalize st -> explored st -> explored (iteration st).1.
Proof.
  intros Hnorm (Hacc & Hfol). unfold iteration.
  destruct (fillBatch [] (queue st) (urlCache st)) as [[b q'] c'] eqn:Hf.
  assert ((forall x, x ∈ urlCache st -> x ∈ c') /\
          (forall x, x ∈ q' -> x ∈ queue st) /\
          (forall q, q ∈ enqueued st -> q ∈ q' \/ url q ∈ c' \/ exceeds (depth q) k = true))
    as (Hmono & Hq' & Hacc').
  { eapply (fillBatch_rule L normalize startUrl k
              (fun _ q1 c1 =>
                 (forall x, x ∈ urlCache st -> x ∈ c1) /\
                 (forall x, x ∈ q1 -> x ∈ queue st) /\
                 (forall q, q ∈ enqueued st -> q ∈ q1 \/ url q ∈ c1 \/ exceeds (depth q) k = true)));
      [| | |exact Hf].
    - intros _ next q1 c1 (G1 & G2 & G3) _ Hwhy. split_and!; [done| |].
      + intros x Hx. apply G2, elem_of_cons; auto.
      + intros q Hq. destruct (G3 q Hq) as [[->|?]%elem_of_cons|?]; [|auto..].
        destruct Hwhy as [?|[Hnone|(n & Hn & _ & Hin)]].
        * right. right. done.
        * rewrite (Hnorm next Hq) in Hnone. done.
        * rewrite (Hnorm next Hq) in Hn. injection Hn as <-. auto.
    - intros _ next q1 c1 n (G1 & G2 & G3) _ _ Hn _. split_and!.
      + intros x Hx. apply elem_of_union_r. auto.
      + intros x Hx. apply G2, elem_of_cons; auto.
      + intros q Hq. destruct (G3 q Hq) as [[->|?]%elem_of_cons|[?|?]]; [|auto..].
        * rewrite (Hnorm next Hq) in Hn. injection Hn as <-.
          right. left. apply elem_of_union_l, elem_of_singleton. done.
        * right. left. by apply elem_of_union_r.
    - split_and!; auto. }
  assert (forall done (st' : state),
             links_followed done st ->
             urlCache st' = c' -> enqueued st' = enqueued st ->
             links_followed done st') as Hkeep.
  { intros done st' Hd Hc He e info href t H1 H2 H3 H4 H5.
    rewrite Hc, He. destruct (Hd e info href t H1 H2 H3 H4 H5); auto. }
  destruct b as [|e0 b0]; cbn [fst].
  { split; simpl; [done|]. by apply (Hkeep _ _ Hfol). }
  remember (e0 :: b0) as b eqn:Hbeq. clear Hbeq.
  match goal with |- explored (fold_left _ _ ?s) => set (st1 := s) end.
  assert (links_followed (dispatched st) st1) as Hfol1 by (by apply (Hkeep _ _ Hfol)).
  destruct (addLinks_fold_follows b st1 (dispatched st) Hfol1) as [Hg Hfol2].
  destruct (addLinks_fold_frame normalize k (fetchBatch b) st1) as (_ & _ & Hdisp).
  destruct Hg as (Hc & He & Hq & Hnew).
  split.
  - intros q Hq2. destruct (Hnew q Hq2) as [Hold|?]; [|auto].
    rewrite Hc. simpl in Hold. destruct (Hacc' q Hold) as [?|?]; [|auto].
    left. by apply Hq.
  - by rewrite Hdisp.
Qed.

Lemma explored_initial cache : explored (initial startUrl cache).
Proof.
  split; simpl.
  - intros q Hq. auto.
  - intros e info href t He. by apply elem_of_nil in He.
Qed.

End Exhaustive.

Section ExhaustiveClaim.

Variable L : Limits.
Variable normalize : string -> option string.
Variable browse : string -> browser_run.
Variable resolveFavicon : string -> string -> option string.

(** X19. With an integer for k, a crawl that ends before the budget is used
    up has left nothing out: every link of every page fetched below depth k
    leads to a url that is in the cache at the end, and, after a reset, to a
    url the crawl itself fetched. (With a k that is no integer the links of
    a page fetched less than one level above k are put on the frontier and
    dropped there.) *)
Theorem crawl_within_budget_is_exhaustive
        u reset startUrl (z : Z) fuel cache cache' o :
  (forall s t, normalize s = Some t -> normalize t = Some t) ->
  (0 < CONCURRENT_FETCHES L)%nat ->
  session normalize u reset cache = Some (startUrl, cache') ->
  run L normalize browse resolveFavicon no_fault startUrl (int z) fuel cache' = Some o ->
  (processedCount (final o) < TOTAL_NODES L)%nat ->
  forall e info href t,
    e ∈ dispatched (final o) ->
    getPageInfo L browse resolveFavicon (url e) = fulfilled info ->
    depth e < z -> href ∈ links info -> normalize href = Some t ->
    t ∈ urlCache (final o) /\
    (reset = true -> exists e', e' ∈ dispatched (final o) /\ url e' = t).
Proof.
  intros Hidem Hconc [Hu Hcache]%session_inv Hrun Hbudget e info href t He Hp Hd Hh Hn.
  set (k := int z) in *.
  assert (normalize startUrl = Some startUrl) as Hseed by eauto.
  pose proof (run_recorded _ _ _ _ _ _ _ _ _ _ Hrun) as (_ & _ & Hc & _).
  assert (left_normally L o) as [_ [Hempty|?]]; [|clear Hconc|lia].
  { unfold run in Hrun. by eapply crawlLoop_left_normally in Hrun. }
  assert (explored L normalize browse resolveFavicon k (final o) /\
          enqueued_normal normalize (final o)) as [[Hacc Hfol] _].
  { revert Hrun.
    apply (crawlLoop_rule _ _ _ _ _ _ _
             (fun st => explored L normalize browse resolveFavicon k st /\
                        enqueued_normal normalize st)).
    - intros st [Hex Hnorm] _. split.
      + by apply explored_iteration.
      + by eapply enqueued_normal_iteration.
    - split; [apply explored_initial|by apply enqueued_normal_initial]. }
  assert (t ∈ urlCache (final o)) as Hin.
  { destruct (Hfol e info href t He Hp (proj2 (below_int _ _) Hd) Hh Hn) as [?|Henq];
      [done|].
    destruct (Hacc _ Henq) as [Hq|[?|Hdeep%exceeds_int]]; [|done|simpl in *; lia].
    rewrite Hempty in Hq. by apply elem_of_nil in Hq. }
  split; [done|]. intros ->.
  rewrite Hc, Hcache in Hin.
  apply elem_of_union in Hin as [Hin|Hin]; [|set_solver].
  apply elem_of_list_to_set, list_elem_of_fmap in Hin as (e' & -> & He'). eauto.
Qed.

End ExhaustiveClaim.

(** * The extras on the concrete sites *)

Lemma resolve_absolute fav page r : resolve fav page = Some r -> startsWith r "/" = false.
Proof. unfold resolve. intros [= <-]. reflexivity. Qed.

Lemma parse_nonempty s t : parse s = Some t -> t <> "".
Proof.
  unfold parse. destruct (startsWith s "http") eqn:Hs; [|done].
  intros [= <-] ->. done.
Qed.

Lemma page_links_bounded_distinct_kept_witness :
  getPageInfo LIMITS site resolve "http://a/" = fulfilled page_a /\
  ((length (links page_a) <= LINKS_PER_PAGE LIMITS)%nat /\
   NoDup (links page_a) /\
   (forall h, h ∈ links page_a -> keepLink h = true) /\
   (site "http://a/" = PageThrows -> links page_a = [])).
Proof.
  assert (getPageInfo LIMITS site resolve "http://a/" = fulfilled page_a) as Hp
      by (vm_compute; reflexivity).
  split; [exact Hp|].
  exact (page_links_bounded_distinct_kept LIMITS site resolve "http://a/" page_a Hp).
Defined.

Lemma favicon_never_root_relative_witness :
  favicon page_a = Some "http://cdn/favicon.ico" /\
  startsWith "http://cdn/favicon.ico" "/" = false.
Proof.
  split; [reflexivity|].
  apply (favicon_never_root_relative LIMITS site resolve "http://a/" page_a).
  - exact resolve_absolute.
  - vm_compute; reflexivity.
  - reflexivity.
Defined.

Lemma returned_graph_has_no_repetition_witness :
  map id (graph_nodes (buildGraph (site_outcome (int 2) ∅)))
  = ["http://a/"; "http://b/"; "http://c/"] /\
  (NoDup (map id (graph_nodes (buildGraph (site_outcome (int 2) ∅)))) /\
   NoDup (graph_links (buildGraph (site_outcome (int 2) ∅)))).
Proof.
  split; [vm_compute; reflexivity|].
  apply (returned_graph_has_no_repetition
           LIMITS parse site resolve no_fault "http://a/" (int 2) 10%nat ∅ (site_outcome (int 2) ∅)).
  vm_compute; reflexivity.
Defined.

Lemma frontier_and_links_bounded_witness :
  length (enqueued (final fan_outcome)) = 421%nat /\
  ((length (queue (final fan_outcome)) <= length (enqueued (final fan_outcome)))%nat /\
   (length (enqueued (final fan_outcome)) <= 1081)%nat /\
   (length (links_set (final fan_outcome)) <= 1080)%nat /\
   (length (graph_links (buildGraph fan_outcome)) <= 1080)%nat).
Proof.
  split; [vm_compute; reflexivity|].
  apply (frontier_and_links_bounded
           LIMITS parse fan resolve no_fault "http://s/" (int 2) 20%nat ∅ fan_outcome).
  vm_compute; reflexivity.
Defined.

Lemma one_node_per_processed_result_witness :
  processedCount (final (site_outcome (int 2) ∅)) = 3%nat /\
  (length (nodes (final (site_outcome (int 2) ∅))) = processedCount (final (site_outcome (int 2) ∅)) /\
   (site_outcome (int 2) ∅ = Completed (final (site_outcome (int 2) ∅)) ->
    length (graph_nodes (buildGraph (site_outcome (int 2) ∅)))
    = processedCount (final (site_outcome (int 2) ∅)))).
Proof.
  split; [vm_compute; reflexivity|].
  apply (one_node_per_processed_result
           LIMITS parse site resolve no_fault
           "http://a/" false "http://a/" (int 2) 10%nat ∅ (∅ ∖ {["http://a/"]})
           (site_outcome (int 2) ∅)).
  - exact parse_idem.
  - vm_compute; reflexivity.
  - vm_compute; reflexivity.
Defined.

Lemma nodes_reachable_within_k_hops_witness :
  map id (graph_nodes (buildGraph (site_outcome (int 2) ∅)))
  = ["http://a/"; "http://b/"; "http://c/"] /\
  forall n, n ∈ graph_nodes (buildGraph (site_outcome (int 2) ∅)) ->
            exists e,
              e ∈ dispatched (final (site_outcome (int 2) ∅)) /\ url e = id n /\
              0 <= depth e /\ exceeds (depth e) (int 2) = false /\
              path (graph_links (buildGraph (site_outcome (int 2) ∅)))
                   (Z.to_nat (depth e)) "http://a/" (id n).
Proof.
  split; [vm_compute; reflexivity|].
  apply (nodes_reachable_within_k_hops
           LIMITS parse site resolve no_fault
           "http://a/" false "http://a/" (int 2) 10%nat ∅ (∅ ∖ {["http://a/"]})
           (site_outcome (int 2) ∅)).
  - exact parse_idem.
  - vm_compute; reflexivity.
  - vm_compute; reflexivity.
Defined.

Lemma rejected_fetch_gives_no_node_witness :
  map url (dispatched (final (site_outcome (int 2) ∅)))
  = ["http://a/"; "http://b/"; "http://c/"; "http://d/"] /\
  ((forall n, n ∈ graph_nodes (buildGraph (site_outcome (int 2) ∅)) -> id n <> "http://d/") /\
   (forall l, l ∈ graph_links (buildGraph (site_outcome (int 2) ∅)) ->
              source l <> "http://d/" /\ target l <> "http://d/") /\
   (forall l, l ∈ links_set (final (site_outcome (int 2) ∅)) -> source l <> "http://d/") /\
   ~ settles LIMITS site resolve {| url := "http://d/"; depth := 2 |} /\
   processedCount (final (site_outcome (int 2) ∅))
   = length (filter (settles LIMITS site resolve)
                    (dispatched (final (site_outcome (int 2) ∅)))) /\
   "http://d/" ∈ urlCache (final (site_outcome (int 2) ∅))).
Proof.
  split; [vm_compute; reflexivity|].
  apply (rejected_fetch_gives_no_node
           LIMITS parse site resolve no_fault "http://a/" (int 2) 10%nat ∅
           (site_outcome (int 2) ∅) {| url := "http://d/"; depth := 2 |}).
  - vm_compute; reflexivity.
  - vm_compute. repeat constructor.
  - reflexivity.
Defined.

Lemma depth_zero_keeps_to_the_seed_witness :
  map id (graph_nodes (buildGraph (site_outcome (int 0) ∅))) = ["http://a/"] /\
  (enqueued (final (site_outcome (int 0) ∅)) = [seed "http://a/"] /\
   links_set (final (site_outcome (int 0) ∅)) = [] /\
   graph_links (buildGraph (site_outcome (int 0) ∅)) = [] /\
   (length (graph_nodes (buildGraph (site_outcome (int 0) ∅))) <= 1)%nat /\
   (forall e, e ∈ dispatched (final (site_outcome (int 0) ∅)) ->
              depth e = 0 /\ parse "http://a/" = Some (url e))).
Proof.
  split; [vm_compute; reflexivity|].
  apply (depth_zero_keeps_to_the_seed
           LIMITS parse site resolve no_fault "http://a/" 10%nat ∅ (site_outcome (int 0) ∅)).
  vm_compute; reflexivity.
Defined.

Lemma cache_after_request_witness :
  map url (dispatched (final site_revisited)) = ["http://a/"; "http://c/"] /\
  ((forall x,
       (exists e, e ∈ dispatched (final site_revisited) /\ url e = x) \/
       (x ∈ visited_before /\ x <> "http://a/") ->
       x ∈ urlCache (final site_revisited)) /\
   (site_revisited = Completed (final site_revisited) ->
    forall x,
      x ∈ urlCache (final site_revisited) ->
      (exists e, e ∈ dispatched (final site_revisited) /\ url e = x) \/
      (x ∈ visited_before /\ x <> "http://a/"))).
Proof.
  split; [vm_compute; reflexivity|].
  apply (cache_after_request
           LIMITS parse site resolve no_fault
           "http://a/" false "http://a/" (int 2) 10%nat visited_before
           (visited_before ∖ {["http://a/"]}) site_revisited).
  - vm_compute; reflexivity.
  - vm_compute; reflexivity.
Defined.

Lemma client_shows_the_returned_graph_witness :
  map ends (clinks (handleSubmit emptyGraph (Json (buildGraph (site_outcome (int 1) ∅)))))
  = [{| source := "http://a/"; target := "http://b/" |};
     {| source := "http://a/"; target := "http://c/" |}] /\
  (cnodes (handleSubmit emptyGraph (Json (buildGraph (site_outcome (int 1) ∅))))
   = graph_nodes (buildGraph (site_outcome (int 1) ∅)) /\
   map ends (clinks (handleSubmit emptyGraph (Json (buildGraph (site_outcome (int 1) ∅)))))
   = graph_links (buildGraph (site_outcome (int 1) ∅))).
Proof.
  split; [vm_compute; reflexivity|].
  apply (client_shows_the_returned_graph
           LIMITS parse site resolve no_fault "http://a/" (int 1) 10%nat ∅ (site_outcome (int 1) ∅)).
  - exact parse_nonempty.
  - vm_compute; reflexivity.
Defined.

Lemma crawl_within_budget_is_exhaustive_witness :
  links page_a = ["http://b/"; "http://c/"] /\
  forall e info href t,
    e ∈ dispatched (final (site_outcome (int 2) ∅)) ->
    getPageInfo LIMITS site resolve (url e) = fulfilled info ->
    depth e < 2 -> href ∈ links info -> parse href = Some t ->
    t ∈ urlCache (final (site_outcome (int 2) ∅)) /\
    (true = true -> exists e', e' ∈ dispatched (final (site_outcome (int 2) ∅)) /\ url e' = t).
Proof.
  split; [reflexivity|].
  apply (crawl_within_budget_is_exhaustive
           LIMITS parse site resolve
           "http://a/" true "http://a/" 2 10%nat ∅ (∅ ∖ {["http://a/"]})
           (site_outcome (int 2) ∅)).
  - exact parse_idem.
  - simpl; lia.
  - vm_compute; reflexivity.
  - vm_compute; reflexivity.
  - vm_compute; lia.
Defined.
